(** * Offline-first transaction recording: store, synchronisation, cache worker

    A shallow embedding of the persistence and synchronisation code of the
    mobile-money recorder: the IndexedDB helpers and the [App] component, in
    its two versions ([PWA_Transaction_Prototype.jsx] and [MobiLedger.jsx]),
    and the service workers ([public/service-worker.js], whose cache is
    [om-cache-v1], and its successor, whose cache is [om-cache-v2]), with
    the properties the specification states about them.

    Conventions of the model:
    - a JavaScript object used as a record is a finite map from property
      names to values; a missing property reads as [VUndef];
    - a Number is an IEEE 754 double: [VNum q] is the finite double whose
      exact value is the rational [q], [VInf] an infinity, and what is read
      from a string is rounded to the nearest double, ties to even; the two
      zeros are one value;
    - an ISO-8601 timestamp string, as [Date.prototype.toISOString] makes
      it, is [VTime ms] where [ms] is the instant in milliseconds;
    - an [async] function is cut at its [await]s into a call and one
      resumption per suspension point; the world state is threaded through
      them explicitly. *)

From Stdlib Require Import ZArith QArith Qcanon Ascii String List Bool Lia.
From stdpp Require Import base option gmap strings list fin_maps countable.
From Stdlib Require HexadecimalString.
From Stdlib Require Import Sorted.

Local Open Scope string_scope.

(** ** JavaScript values and records *)

Module JS.

Inductive value :=
  | VUndef
  | VStr (s : string)
  | VNum (q : Qc)
  | VNaN
  | VTime (ms : Z)
  | VInf (negative : bool).

#[global] Instance value_eq_dec : EqDecision value.
Proof. solve_decision. Defined.

Definition value_code (v : value)
  : unit + (string + (Qc + (unit + (Z + bool)))) :=
  match v with
  | VUndef => inl ()
  | VStr s => inr (inl s)
  | VNum q => inr (inr (inl q))
  | VNaN => inr (inr (inr (inl ())))
  | VTime ms => inr (inr (inr (inr (inl ms))))
  | VInf b => inr (inr (inr (inr (inr b))))
  end.

Definition value_decode (c : unit + (string + (Qc + (unit + (Z + bool)))))
  : value :=
  match c with
  | inl _ => VUndef
  | inr (inl s) => VStr s
  | inr (inr (inl q)) => VNum q
  | inr (inr (inr (inl _))) => VNaN
  | inr (inr (inr (inr (inl ms)))) => VTime ms
  | inr (inr (inr (inr (inr b)))) => VInf b
  end.

#[global] Instance value_countable : Countable value.
Proof.
  apply (inj_countable' value_code value_decode).
  by intros [].
Defined.

(** An object: property name to value. *)
Abbreviation record := (gmap string value).

(** [o.f]: reading a property that is not there gives [undefined]. *)
Definition prop (o : record) (f : string) : value := default VUndef (o !! f).

(** [{ ...a, ...b }]: the properties of [b] win. *)
Definition spread (a b : record) : record := b ∪ a.

(** The Number whose value is the integer [n], for an [n] that a double
    holds exactly. *)
Definition int (n : Z) : value := VNum (Q2Qc (inject_Z n)).

(** *** Rounding to a double *)

(** [n · 2^-k] and [d · 2^k] with the negative power moved to the other
    side: [num_at n k / den_at d k] is [(n / d) / 2^k]. *)
Definition num_at (n k : Z) : Z := (n * 2 ^ Z.max 0 (- k))%Z.
Definition den_at (d k : Z) : Z := (d * 2 ^ Z.max 0 k)%Z.

(** The exponent of the leading bit of [n / d], for positive [n] and [d]:
    the [e] with [2^e ≤ n / d < 2^(e+1)]. *)
Definition ilog2 (n d : Z) : Z :=
  let e := (Z.log2 n - Z.log2 d)%Z in
  if (den_at d e <=? num_at n e)%Z then e else (e - 1)%Z.

(** The integer nearest to [n / d], the even one of two that are as near. *)
Definition round_even (n d : Z) : Z :=
  match (2 * (n mod d) ?= d)%Z with
  | Lt => (n / d)%Z
  | Gt => (n / d + 1)%Z
  | Eq => if Z.even (n / d) then (n / d)%Z else (n / d + 1)%Z
  end.

(** The Number value of the real [q]: [q] rounded to the nearest double,
    ties to even.  A double has 53 significant bits above the exponent
    [-1074] of the subnormals, and a result that reaches [2^1024] is an
    infinity.  This is what engines compute for a decimal literal of any
    length; ECMAScript lets an implementation approximate the digits after
    the twentieth. *)
Definition number (q : Q) : value :=
  let n := Z.abs (Qnum q) in
  let d := Zpos (Qden q) in
  if (n =? 0)%Z then int 0
  else
    let k := Z.max (ilog2 n d - 52) (-1074) in
    let m := round_even (num_at n k) (den_at d k) in
    if (1024 <=? Z.log2 m + k)%Z then VInf (Qnum q <? 0)%Z
    else VNum (Q2Qc (Qmake (Z.sgn (Qnum q) * num_at m (- k))
                       (Z.to_pos (den_at 1 (- k))))).

End JS.

Import JS.

(** ** The Local Transaction Store: the IndexedDB helpers *)

Module Store.

(** The object store [transactions], created with [keyPath: 'id']: records
    keyed by the value of their [id] property.  The database is taken to
    open ([openDB] resolves) and a request to fail only for the reasons
    given below. *)
Abbreviation store := (gmap value record).

Definition keyPath : string := "id".

(** What IndexedDB accepts as a key, among the values of the model. *)
Definition valid_key (k : value) : bool :=
  match k with
  | VUndef | VNaN => false
  | VStr _ | VNum _ | VTime _ | VInf _ => true
  end.

Inductive error :=
  | ConstraintError   (* [add] on a key that is taken *)
  | DataError         (* the value at the key path, or the key given, is not a key *)
  | NotFound.         (* [new Error('Not found')] *)

(** How the promise an operation returns ends up.  [Unsettled]: neither
    [resolve] nor [reject] is ever called. *)
Inductive outcome (A : Type) :=
  | Resolved (a : A)
  | Rejected (e : error)
  | Unsettled.
Arguments Resolved {A} a.
Arguments Rejected {A} e.
Arguments Unsettled {A}.

(** Every record sits under the key its [id] property gives: true of an
    object store with a key path by construction. *)
Definition wf_store (db : store) : Prop :=
  map_Forall (λ k r, prop r keyPath = k ∧ valid_key k = true) db.

#[global] Instance wf_store_dec db : Decision (wf_store db).
Proof. unfold wf_store. apply _. Defined.

(** [addTransaction(tx)]: [store.add(tx)] throws [DataError] inside the
    promise executor when [tx.id] is not a key (the promise rejects), fires
    [onerror] with [ConstraintError] when the key is taken (the transaction
    aborts, nothing is written), and [onsuccess] with the key otherwise. *)
Definition addTransaction (tx : record) (db : store) : outcome value * store :=
  let k := prop tx keyPath in
  if valid_key k then
    match db !! k with
    | Some _ => (Rejected ConstraintError, db)
    | None => (Resolved k, <[k := tx]> db)
    end
  else (Rejected DataError, db).

(** [getAllTransactions()]: [store.getAll()], every record.  IndexedDB
    lists them by key; the model lists them in the order of the map, and
    the one caller re-sorts by date. *)
Definition getAllTransactions (db : store) : list record :=
  (map_to_list db).*2.

(** [updateTransaction(id, patch)]: [store.get(id)] throws [DataError] in
    the executor when [id] is not a key; in [getReq.onsuccess] a missing
    record rejects with 'Not found', otherwise the merged record is [put].
    [put] stores under the merged record's own [id]; when that is not a key
    it throws inside the event handler: nothing is written and the promise
    is never settled. *)
Definition updateTransaction (id : value) (patch : record) (db : store)
  : outcome record * store :=
  if valid_key id then
    match db !! id with
    | None => (Rejected NotFound, db)
    | Some record =>
        let updated := spread record patch in
        let k := prop updated keyPath in
        if valid_key k then (Resolved updated, <[k := updated]> db)
        else (Unsettled, db)
    end
  else (Rejected DataError, db).

End Store.

(** ** Amounts: the form field and its parsers *)

Module Amount.

Local Open Scope Z_scope.

(** Strings are sequences of code units below 256. *)
Definition code (c : ascii) : nat := nat_of_ascii c.

(** [\d] *)
Definition is_digit (c : ascii) : bool :=
  (48 <=? code c)%nat && (code c <=? 57)%nat.

(** [\w]: letters, digits and the underscore. *)
Definition is_word (c : ascii) : bool :=
  is_digit c
  || ((65 <=? code c)%nat && (code c <=? 90)%nat)
  || ((97 <=? code c)%nat && (code c <=? 122)%nat)
  || (code c =? 95)%nat.

(** [\s], and the white space [parseInt] and [parseFloat] skip: tab, line
    feed, vertical tab, form feed, carriage return, space, no-break space. *)
Definition is_space (c : ascii) : bool :=
  ((9 <=? code c)%nat && (code c <=? 13)%nat)
  || (code c =? 32)%nat || (code c =? 160)%nat.

Definition digit_val (c : ascii) : Z := Z.of_nat (code c) - 48.

Fixpoint keep (p : ascii → bool) (s : string) : string :=
  match s with
  | EmptyString => EmptyString
  | String c r => if p c then String c (keep p r) else keep p r
  end.

(** The longest prefix of characters satisfying [p], and the rest. *)
Fixpoint span (p : ascii → bool) (s : string) : string * string :=
  match s with
  | EmptyString => (EmptyString, EmptyString)
  | String c r =>
      if p c then let '(a, b) := span p r in (String c a, b)
      else (EmptyString, s)
  end.

Fixpoint drop_while (p : ascii → bool) (s : string) : string :=
  match s with
  | EmptyString => EmptyString
  | String c r => if p c then drop_while p r else s
  end.

(** The lookahead [(?=(\d{3})+(?!\d))]: the digits that start here, up to
    the first non-digit, come in a positive multiple of three. *)
Definition groups_of_three_ahead (s : string) : bool :=
  let n := String.length (fst (span is_digit s)) in
  (0 <? n)%nat && (n mod 3 =? 0)%nat.

(** [.replace(/\B(?=(\d{3})+(?!\d))/g, ' ')].  The empty match at a
    position is replaced by a space; [\B] holds where the characters on
    both sides are word characters or both are not, and the lookahead
    needs a digit on the right, so the left one must be a word character.
    [prev] tells whether it is. *)
Fixpoint thousands_from (prev : bool) (s : string) : string :=
  match s with
  | EmptyString => EmptyString
  | String c r =>
      let rest := String c (thousands_from (is_word c) r) in
      if prev && groups_of_three_ahead s then String " " rest else rest
  end.

Definition thousands (s : string) : string := thousands_from false s.

(** [formatAmountInput(value)] *)
Definition formatAmountInput (value : string) : string :=
  let numericValue := keep is_digit value in
  if decide (numericValue = "") then "" else thousands numericValue.

(** The number a string of decimal digits denotes. *)
Fixpoint digits_acc (acc : Z) (s : string) : Z :=
  match s with
  | EmptyString => acc
  | String c r => digits_acc (10 * acc + digit_val c) r
  end.

Definition digits_val (s : string) : Z := digits_acc 0 s.

(** An optional sign: the factor and the rest. *)
Definition sign (s : string) : Z * string :=
  match s with
  | String "-" r => (-1, r)
  | String "+" r => (1, r)
  | _ => (1, s)
  end.

(** [parseInt(s, 10)]: leading white space, an optional sign, then the
    longest run of digits; [NaN] when there is none, and otherwise the
    Number value of the integer they denote. *)
Definition parseInt10 (s : string) : value :=
  let '(sg, r) := sign (drop_while is_space s) in
  let '(ds, _) := span is_digit r in
  if decide (ds = "") then VNaN else number (inject_Z (sg * digits_val ds)).

(** [parseAmount(formattedAmount)] *)
Definition parseAmount (formattedAmount : string) : value :=
  let numericValue := keep (λ c, negb (is_space c)) formattedAmount in
  if decide (numericValue = "") then int 0 else parseInt10 numericValue.

(** [10^e] as a rational. *)
Definition pow10 (e : Z) : Q :=
  match e with
  | Z0 => 1%Q
  | Zpos p => inject_Z (10 ^ Zpos p)
  | Zneg p => Qmake 1 (10 ^ p)%positive
  end.

(** The exponent part [e±ddd] of a decimal literal; an [e] that no digit
    follows is not part of the number. *)
Definition exponent (s : string) : Z :=
  match s with
  | String "e" r | String "E" r =>
      let '(sg, r') := sign r in
      let '(ds, _) := span is_digit r' in
      if decide (ds = "") then 0 else sg * digits_val ds
  | _ => 0
  end.

(** [parseFloat(s)]: leading white space, an optional sign, then
    [Infinity] or the longest prefix that is a decimal literal (digits, an
    optional fraction, an optional exponent); [NaN] when no digit is found,
    and otherwise the Number value of what the literal denotes. *)
Definition parseFloat (s : string) : value :=
  let '(sg, r) := sign (drop_while is_space s) in
  if String.prefix "Infinity" r then VInf (sg <? 0)
  else
    let '(ip, r1) := span is_digit r in
    let '(fp, r2) :=
      match r1 with
      | String "." r' => span is_digit r'
      | _ => (EmptyString, r1)
      end in
    if decide (ip = "" ∧ fp = "") then VNaN
    else
      let m := sg * digits_val (ip ++ fp) in
      let e := exponent r2 - Z.of_nat (String.length fp) in
      number (inject_Z m * pow10 e)%Q.

(** An amount that is a number and not below zero. *)
Definition amount_nonneg (v : value) : bool :=
  match v with
  | VNum q => Qle_bool 0 q
  | VInf negative => negb negative
  | _ => false
  end.

(** An amount that is a whole number. *)
Definition amount_whole (v : value) : bool :=
  match v with
  | VNum q => (Zpos (Qden q) =? 1)
  | _ => false
  end.

(** Every character of the string satisfies [p]. *)
Fixpoint all_chars (p : ascii → bool) (s : string) : bool :=
  match s with
  | EmptyString => true
  | String c r => p c && all_chars p r
  end.

End Amount.

(** ** The application component: mirror, connectivity flag, synchronisation *)

Module App.

Import Store Amount.

(** The two [App] components of the repository. *)
Inductive variant :=
  | Prototype    (* PWA_Transaction_Prototype.jsx: [nom_complet], [parseAmount] *)
  | MobiLedger.  (* MobiLedger.jsx: [prenom] and [nom], [parseFloat] *)

(** The [form] state; [nom_complet] exists in the first component only,
    [prenom] and [nom] in the second only. *)
Record form := {
  f_type : string;
  f_nom_complet : string;
  f_prenom : string;
  f_nom : string;
  f_id_document : string;
  f_telephone : string;
  f_montant : string
}.

(** [!s] for a string. *)
Definition falsy (s : string) : bool := bool_decide (s = "").

(** The validation and the object literal of [handleSubmit]; [id] is what
    [uuidv4()] returned and [now] the instant [new Date()] read.  [None]:
    a field is empty, the handler returns before it builds anything. *)
Definition handleSubmit_tx (v : variant) (f : form) (id : string) (now : Z)
  : option record :=
  match v with
  | Prototype =>
      if falsy (f_nom_complet f) || falsy (f_id_document f)
         || falsy (f_telephone f) || falsy (f_montant f)
      then None
      else Some (list_to_map
        [ ("id", VStr id); ("type", VStr (f_type f));
          ("nom_complet", VStr (f_nom_complet f));
          ("id_document", VStr (f_id_document f));
          ("telephone", VStr (f_telephone f));
          ("montant", parseAmount (f_montant f));
          ("status", VStr "pending"); ("created_at", VTime now) ])
  | MobiLedger =>
      if falsy (f_prenom f) || falsy (f_nom f) || falsy (f_id_document f)
         || falsy (f_telephone f) || falsy (f_montant f)
      then None
      else Some (list_to_map
        [ ("id", VStr id); ("type", VStr (f_type f));
          ("prenom", VStr (f_prenom f)); ("nom", VStr (f_nom f));
          ("id_document", VStr (f_id_document f));
          ("telephone", VStr (f_telephone f));
          ("montant", parseFloat (f_montant f));
          ("status", VStr "pending"); ("created_at", VTime now) ])
  end.

(** *** Sorting the mirror *)

(** The time value of [new Date(v)]; [None] is an invalid date. *)
Definition date_ms (v : value) : option Z :=
  match v with
  | VTime ms => Some ms
  | VNum q => Some (Z.quot (Qnum q) (Zpos (Qden q)))
  | _ => None
  end.

(** The comparator [(a, b) => new Date(b.created_at) - new Date(a.created_at)];
    a [NaN] difference counts as zero. *)
Definition by_date_desc (a b : record) : Z :=
  match date_ms (prop b "created_at"), date_ms (prop a "created_at") with
  | Some mb, Some ma => (mb - ma)%Z
  | _, _ => 0%Z
  end.

Fixpoint insert_sorted (cmp : record → record → Z) (x : record)
    (l : list record) : list record :=
  match l with
  | [] => [x]
  | y :: r => if (cmp x y <=? 0)%Z then x :: l else y :: insert_sorted cmp x r
  end.

(** [Array.prototype.sort(cmp)], a stable sort. *)
Definition sort (cmp : record → record → Z) (l : list record) : list record :=
  foldr (insert_sorted cmp) [] l.

(** *** The transport *)

(** What the transport's promise resolves to. *)
Record response := { ok : bool; syncedIds : list value }.

(** How [await fakeSendToServer(pending)], or of what replaces it, ends:
    with a value ([None]: a falsy one) or with a rejection. *)
Inductive reply :=
  | Answer (res : option response)
  | Failure.

(** [fakeSendToServer(batch)]: resolves, after 800 ms, to
    [{ ok: true, syncedIds: batch.map((b) => b.id) }]. *)
Definition fakeSendToServer (batch : list record) : reply :=
  Answer (Some {| ok := true; syncedIds := map (λ b, prop b "id") batch |}).

(** *** The state of the page *)

(** Who awaits a [trySync] call. *)
Inductive caller := FromSubmit | FromForce.

(** A call suspended at an [await]. *)
Inductive task :=
  | MountAwaitLoad                                          (* [loadTransactions()] of the mount effect *)
  | SubmitAwaitAdd (snap : list record) (tx : record)       (* [await addTransaction(tx)] *)
  | SubmitAwaitLoad (snap : list record)                    (* [await loadTransactions()] in [handleSubmit] *)
  | SyncAwaitSend (c : caller) (batch : list record)        (* [await fakeSendToServer(pending)] *)
  | SyncAwaitUpdates (c : caller) (ups : list (value * record))  (* [await Promise.all(...)] *)
  | SyncAwaitLoad (c : caller)                              (* [await loadTransactions()] in [trySync] *)
  | Hung.                                                   (* awaits a promise that is never settled *)

#[global] Instance caller_eq_dec : EqDecision caller.
Proof. solve_decision. Defined.

#[global] Instance task_eq_dec : EqDecision task.
Proof. solve_decision. Defined.

Record world := {
  db : store;                    (* the IndexedDB object store *)
  transactions : list record;    (* [useState([])]: the mirror of the store *)
  online : bool;                 (* [useState(navigator.onLine)] *)
  syncing : bool;                (* [useState(false)] *)
  isSubmitting : bool;           (* [useState(false)], first component only *)
  onLine : bool;                 (* [navigator.onLine] *)
  now : Z;                       (* the clock [new Date()] reads *)
  tasks : list task;             (* the suspended calls *)
  sent : list (list record);     (* ghost: the batches handed to the transport *)
  sync_calls : nat               (* ghost: how often [trySync] was entered *)
}.

Definition set_db (x : store) (w : world) : world :=
  {| db := x; transactions := transactions w; online := online w;
     syncing := syncing w; isSubmitting := isSubmitting w; onLine := onLine w;
     now := now w; tasks := tasks w; sent := sent w; sync_calls := sync_calls w |}.
Definition setTransactions (x : list record) (w : world) : world :=
  {| db := db w; transactions := x; online := online w;
     syncing := syncing w; isSubmitting := isSubmitting w; onLine := onLine w;
     now := now w; tasks := tasks w; sent := sent w; sync_calls := sync_calls w |}.
Definition setOnline (x : bool) (w : world) : world :=
  {| db := db w; transactions := transactions w; online := x;
     syncing := syncing w; isSubmitting := isSubmitting w; onLine := onLine w;
     now := now w; tasks := tasks w; sent := sent w; sync_calls := sync_calls w |}.
Definition setSyncing (x : bool) (w : world) : world :=
  {| db := db w; transactions := transactions w; online := online w;
     syncing := x; isSubmitting := isSubmitting w; onLine := onLine w;
     now := now w; tasks := tasks w; sent := sent w; sync_calls := sync_calls w |}.
Definition setIsSubmitting (x : bool) (w : world) : world :=
  {| db := db w; transactions := transactions w; online := online w;
     syncing := syncing w; isSubmitting := x; onLine := onLine w;
     now := now w; tasks := tasks w; sent := sent w; sync_calls := sync_calls w |}.
Definition set_onLine (x : bool) (w : world) : world :=
  {| db := db w; transactions := transactions w; online := online w;
     syncing := syncing w; isSubmitting := isSubmitting w; onLine := x;
     now := now w; tasks := tasks w; sent := sent w; sync_calls := sync_calls w |}.
Definition set_now (x : Z) (w : world) : world :=
  {| db := db w; transactions := transactions w; online := online w;
     syncing := syncing w; isSubmitting := isSubmitting w; onLine := onLine w;
     now := x; tasks := tasks w; sent := sent w; sync_calls := sync_calls w |}.
Definition set_tasks (x : list task) (w : world) : world :=
  {| db := db w; transactions := transactions w; online := online w;
     syncing := syncing w; isSubmitting := isSubmitting w; onLine := onLine w;
     now := now w; tasks := x; sent := sent w; sync_calls := sync_calls w |}.
Definition log_sent (b : list record) (w : world) : world :=
  {| db := db w; transactions := transactions w; online := online w;
     syncing := syncing w; isSubmitting := isSubmitting w; onLine := onLine w;
     now := now w; tasks := tasks w; sent := sent w ++ [b];
     sync_calls := sync_calls w |}.
Definition count_sync (w : world) : world :=
  {| db := db w; transactions := transactions w; online := online w;
     syncing := syncing w; isSubmitting := isSubmitting w; onLine := onLine w;
     now := now w; tasks := tasks w; sent := sent w;
     sync_calls := S (sync_calls w) |}.

(** The page as it is first rendered. *)
Definition initial (d : store) (net : bool) (t : Z) : world :=
  {| db := d; transactions := []; online := net; syncing := false;
     isSubmitting := false; onLine := net; now := t; tasks := [];
     sent := []; sync_calls := 0 |}.

(** *** The handlers *)

Definition push_task (ot : option task) (w : world) : world :=
  match ot with
  | Some t => set_tasks (tasks w ++ [t]) w
  | None => w
  end.

(** [loadTransactions()], from the moment [getAllTransactions()] has
    answered: sort by date, newest first, and replace the mirror. *)
Definition loadTransactions (w : world) : world :=
  setTransactions (sort by_date_desc (getAllTransactions (db w))) w.

(** What the caller of [trySync] does once the call has returned: a
    notification or an alert (not modelled) and, for [handleSubmit] of the
    first component, [finally { setIsSubmitting(false) }]. *)
Definition submit_end (v : variant) (w : world) : world :=
  match v with
  | Prototype => setIsSubmitting false w
  | MobiLedger => w
  end.

Definition after_sync (v : variant) (c : caller) (w : world) : world :=
  match c with
  | FromSubmit => submit_end v w
  | FromForce => w
  end.

(** Leaving [trySync]: [finally { setSyncing(false) }], then the caller. *)
Definition sync_end (v : variant) (c : caller) (w : world) : world :=
  after_sync v c (setSyncing false w).

(** [t.status === 'pending'] *)
Definition is_pending (t : record) : Prop := prop t "status" = VStr "pending".

#[global] Instance is_pending_dec t : Decision (is_pending t).
Proof. unfold is_pending. apply _. Defined.

(** [{ status: 'synced', synced_at: new Date().toISOString() }] *)
Definition synced_patch (t : Z) : record :=
  {[ "status" := VStr "synced"; "synced_at" := VTime t ]}.

(** [trySync()] up to its first [await].  [snap] is the [transactions]
    array of the render whose closure the call runs in. *)
Definition trySync_call (v : variant) (c : caller) (snap : list record)
    (w : world) : world * option task :=
  let w := setSyncing true (count_sync w) in
  let pending := filter is_pending snap in
  match pending with
  | [] => (sync_end v c w, None)
  | _ :: _ => (log_sent pending w, Some (SyncAwaitSend c pending))
  end.

(** The batches a call with this snapshot hands to the transport: its
    pending records, when there are any. *)
Definition submitted (snap : list record) : list (list record) :=
  match filter is_pending snap with
  | [] => []
  | p => [p]
  end.

(** After [await fakeSendToServer(pending)]: on [res && res.ok] one
    [updateTransaction] is started per id of [res.syncedIds]. *)
Definition sync_reply (v : variant) (c : caller) (r : reply) (w : world)
  : world * option task :=
  match r with
  | Answer (Some res) =>
      if ok res then
        (w, Some (SyncAwaitUpdates c
                    (map (λ id, (id, synced_patch (now w))) (syncedIds res))))
      else (sync_end v c w, None)
  | Answer None => (sync_end v c w, None)
  | Failure => (sync_end v c w, None)
  end.

(** The [updateTransaction] calls of one [Promise.all], each in its own
    transaction, in the order they were started. *)
Fixpoint apply_updates (ups : list (value * record)) (d : store)
  : list (outcome record) * store :=
  match ups with
  | [] => ([], d)
  | (id, patch) :: r =>
      let '(o, d1) := updateTransaction id patch d in
      let '(os, d2) := apply_updates r d1 in
      (o :: os, d2)
  end.

Definition is_rejected {A} (o : outcome A) : bool :=
  match o with Rejected _ => true | _ => false end.

Definition is_unsettled {A} (o : outcome A) : bool :=
  match o with Unsettled => true | _ => false end.

(** After [await Promise.all(...)]: it rejects when one update rejected
    (the others are carried out all the same), is never settled when one
    update is not, and otherwise [loadTransactions()] is called. *)
Definition sync_updates (v : variant) (c : caller)
    (ups : list (value * record)) (w : world) : world * option task :=
  let '(outs, d) := apply_updates ups (db w) in
  let w := set_db d w in
  if existsb is_rejected outs then (sync_end v c w, None)
  else if existsb is_unsettled outs then (w, Some Hung)
  else (w, Some (SyncAwaitLoad c)).

(** After [await loadTransactions()] in [trySync]. *)
Definition sync_load (v : variant) (c : caller) (w : world)
  : world * option task :=
  (sync_end v c (loadTransactions w), None).

(** [handleSubmit(e)] up to [await addTransaction(tx)]. *)
Definition handleSubmit_call (v : variant) (f : form) (id : string)
    (w : world) : world * option task :=
  match handleSubmit_tx v f id (now w) with
  | None => (w, None)
  | Some tx =>
      (match v with Prototype => setIsSubmitting true w | MobiLedger => w end,
       Some (SubmitAwaitAdd (transactions w) tx))
  end.

(** After [await addTransaction(tx)]. *)
Definition submit_added (v : variant) (snap : list record) (tx : record)
    (w : world) : world * option task :=
  match addTransaction tx (db w) with
  | (Resolved _, d) => (set_db d w, Some (SubmitAwaitLoad snap))
  | (_, d) => (submit_end v (set_db d w), None)
  end.

(** After [await loadTransactions()] in [handleSubmit]: the [trySync] that
    is called is the one of the render [handleSubmit] was created in. *)
Definition submit_loaded (v : variant) (snap : list record) (w : world)
  : world * option task :=
  let w := loadTransactions w in
  if onLine w then trySync_call v FromSubmit snap w
  else (submit_end v w, None).

(** [forceSync()] *)
Definition forceSync (v : variant) (snap : list record) (w : world)
  : world * option task :=
  if negb (onLine w) then (w, None) else trySync_call v FromForce snap w.

(** One suspended call continues.  [send] is the transport. *)
Definition resume (send : list record → reply) (v : variant) (t : task)
    (w : world) : world * option task :=
  match t with
  | MountAwaitLoad => (loadTransactions w, None)
  | SubmitAwaitAdd snap tx => submit_added v snap tx w
  | SubmitAwaitLoad snap => submit_loaded v snap w
  | SyncAwaitSend c batch => sync_reply v c (send batch) w
  | SyncAwaitUpdates c ups => sync_updates v c ups w
  | SyncAwaitLoad c => sync_load v c w
  | Hung => (w, Some Hung)
  end.

(** A call run from one suspension to the next, nothing else in between. *)
Fixpoint drive (send : list record → reply) (v : variant) (fuel : nat)
    (st : world * option task) : world * option task :=
  match fuel, st with
  | S n, (w, Some t) => drive send v n (resume send v t w)
  | _, _ => st
  end.

(** One whole [trySync()]: the call and its three [await]s. *)
Definition trySync (send : list record → reply) (v : variant) (c : caller)
    (snap : list record) (w : world) : world * option task :=
  drive send v 3 (trySync_call v c snap w).

(** *** The events of the page *)

Inductive event :=
  | Mount                           (* the effect that runs once *)
  | GoOnline                        (* the browser fires [online] *)
  | GoOffline                       (* the browser fires [offline] *)
  | Submit (f : form) (id : string) (* the form is submitted *)
  | ClickForceSync                  (* the "Forcer sync" button *)
  | Resume (i : nat)                (* the [i]-th suspended call continues *)
  | Tick (dt : nat).                (* time passes *)

Definition step (send : list record → reply) (v : variant) (e : event)
    (w : world) : world :=
  match e with
  | Mount => push_task (Some MountAwaitLoad) w
  | GoOnline => setOnline true (set_onLine true w)
  | GoOffline => setOnline false (set_onLine false w)
  | Submit f id =>
      (* the submit button of the first component: [disabled={isSubmitting}] *)
      if match v with Prototype => isSubmitting w | MobiLedger => false end
      then w
      else let '(w', ot) := handleSubmit_call v f id w in push_task ot w'
  | ClickForceSync =>
      (* [disabled={!online || syncing}] *)
      if online w && negb (syncing w)
      then let '(w', ot) := forceSync v (transactions w) w in push_task ot w'
      else w
  | Resume i =>
      match tasks w !! i with
      | Some t =>
          let '(w', ot) := resume send v t (set_tasks (delete i (tasks w)) w) in
          push_task ot w'
      | None => w
      end
  | Tick dt => set_now (now w + Z.of_nat dt)%Z w
  end.

(** The events the connectivity listeners handle. *)
Definition connectivity (e : event) : bool :=
  match e with
  | GoOnline | GoOffline => true
  | _ => false
  end.

Definition run (send : list record → reply) (v : variant) (es : list event)
    (w : world) : world :=
  foldl (λ w e, step send v e w) w es.



(** *** What holds of the page at every moment *)

(** The store only grows: what has a record keeps one. *)
Definition grows (d d' : store) : Prop :=
  ∀ k, is_Some (d !! k) → is_Some (d' !! k).

(** The store has a record under the id of [t]. *)
Definition in_store (d : store) (t : record) : Prop :=
  is_Some (d !! prop t "id").

(** The snapshots a suspended call carries are of records of the store. *)
Definition task_ok (d : store) (t : task) : Prop :=
  match t with
  | SubmitAwaitAdd snap _ | SubmitAwaitLoad snap => Forall (in_store d) snap
  | SyncAwaitSend _ batch => Forall (in_store d) batch
  | _ => True
  end.

(** Records sit under their ids, and the mirror and every snapshot still
    in use hold records of the store only. *)
Definition consistent (w : world) : Prop :=
  wf_store (db w)
  ∧ Forall (in_store (db w)) (transactions w)
  ∧ Forall (task_ok (db w)) (tasks w).

(** The world a handler leaves and the suspension it may have reached. *)
Definition consistent_out (r : world * option task) : Prop :=
  consistent r.1 ∧ from_option (task_ok (db r.1)) True r.2.

End App.

(** ** The Offline Cache Worker: the service workers *)

Module Worker.

Record request := { url : string; method : string; mode : string }.

Record response := { status : nat; body : string }.

#[global] Instance request_eq_dec : EqDecision request.
Proof. solve_decision. Defined.

#[global] Instance response_eq_dec : EqDecision response.
Proof. solve_decision. Defined.

(** One cache: responses keyed by request URL. *)
Abbreviation cache := (gmap string response).

(** [caches]: the named caches, in the order they were created. *)
Abbreviation storage := (list (string * cache)).

(** [fetch]: [None] when the promise rejects (no network). *)
Abbreviation network := (request → option response).

(** The request a URL string stands for, relative to the worker's origin. *)
Definition GET (origin path : string) : request :=
  {| url := origin ++ path; method := "GET"; mode := "cors" |}.

Definition caches_keys (st : storage) : list string := st.*1.

(** [caches.open(name)]: a cache that is not there is created, empty. *)
Definition caches_open (name : string) (st : storage) : storage :=
  if decide (name ∈ caches_keys st) then st else st ++ [(name, ∅)].

(** [caches.delete(name)] *)
Definition caches_delete (name : string) (st : storage) : storage :=
  filter (λ e, e.1 ≠ name) st.

(** [caches.match(req)]: the first cache, in creation order, that has the
    URL; only [GET] requests match. *)
Fixpoint match_in (u : string) (st : storage) : option response :=
  match st with
  | [] => None
  | (_, c) :: r =>
      match c !! u with
      | Some resp => Some resp
      | None => match_in u r
      end
  end.

Definition caches_match (req : request) (st : storage) : option response :=
  if decide (method req = "GET") then match_in (url req) st else None.

(** [caches.open(name).then(cache => cache.put(req, resp))]; [put] rejects
    for a request that is not a [GET], and nothing is stored. *)
Definition cache_put (name : string) (req : request) (resp : response)
    (st : storage) : storage :=
  let st := caches_open name st in
  if decide (method req = "GET") then
    map (λ e, if decide (e.1 = name) then (e.1, <[url req := resp]> e.2) else e) st
  else st.

(** [response.ok] *)
Definition resp_ok (r : response) : bool :=
  (200 <=? status r)%nat && (status r <=? 299)%nat.

(** What [cache.addAll] accepts of an answer: an [ok] status other than
    206 (Partial Content). *)
Definition addAll_accepts (r : response) : bool :=
  resp_ok r && negb (status r =? 206)%nat.

(** The fetches of [cache.addAll(urls)]: all of them must answer, with a
    status [addAll] accepts. *)
Fixpoint fetch_all (net : network) (reqs : list request)
  : option (list (request * response)) :=
  match reqs with
  | [] => Some []
  | q :: r =>
      match net q with
      | Some resp =>
          if addAll_accepts resp then
            match fetch_all net r with
            | Some l => Some ((q, resp) :: l)
            | None => None
            end
          else None
      | None => None
      end
  end.

Record config := { CACHE_NAME : string; PRECACHE_URLS : list string }.

(** [public/service-worker.js] *)
Definition v1 : config :=
  {| CACHE_NAME := "om-cache-v1";
     PRECACHE_URLS :=
       [ "/"; "/index.html"; "/main.jsx"; "/App.jsx"; "/mobile_money.jsx";
         "/src/index.css"; "/public/manifest.json";
         "/public/service-worker.js"; "/public/_redirects" ] |}.

(** Its successor *)
Definition v2 : config :=
  {| CACHE_NAME := "om-cache-v2";
     PRECACHE_URLS :=
       [ "/"; "/index.html"; "/manifest.json"; "/service-worker.js";
         "/_redirects"; "/dist/index.html"; "/dist/manifest.json";
         "/dist/service-worker.js"; "/dist/assets/index-HLPfRb6J.css";
         "/dist/assets/index-HxX_gya9.js";
         "/dist/assets/index.es-D8PF3V3o.js";
         "/dist/assets/html2canvas.esm-CBrSDip1.js";
         "/dist/assets/purify.es-CQJ0hv7W.js" ] |}.

(** The [install] listener, the same in both workers:
    [caches.open(CACHE_NAME).then(cache => cache.addAll(PRECACHE_URLS))].
    [false]: the promise given to [waitUntil] rejects, the worker is not
    installed; the cache that was opened stays. *)
Definition install (cfg : config) (origin : string) (net : network)
    (st : storage) : bool * storage :=
  let st := caches_open (CACHE_NAME cfg) st in
  match fetch_all net (map (GET origin) (PRECACHE_URLS cfg)) with
  | Some entries =>
      (true, foldl (λ s e, cache_put (CACHE_NAME cfg) e.1 e.2 s) st entries)
  | None => (false, st)
  end.

(** What a [fetch] listener leaves behind: the response given to
    [respondWith] ([None]: none, the page sees a network error), the
    caches, and the requests that went to the network. *)
Record handled := {
  answer : option response;
  caches : storage;
  fetched : list request
}.

(** The cache-first branch both workers have: [caches.match(req)], then
    the network, a same-origin [GET] answered with 200 being stored. *)
Definition cache_first (cfg : config) (origin : string) (net : network)
    (req : request) (st : storage) : option handled :=
  match caches_match req st with
  | Some cached => Some {| answer := Some cached; caches := st; fetched := [] |}
  | None =>
      match net req with
      | Some networkResp =>
          let st' :=
            if bool_decide (method req = "GET") && (status networkResp =? 200)%nat
               && String.prefix origin (url req)
            then cache_put (CACHE_NAME cfg) req networkResp st
            else st in
          Some {| answer := Some networkResp; caches := st'; fetched := [req] |}
      | None => None
      end
  end.

(** *** The draft: the worker [MobiLedger.jsx] gives in its closing comment *)
Module W0.

(** [self.skipWaiting()] *)
Definition install (st : storage) : bool * storage := (true, st).

(** [clients.claim()] *)
Definition activate (st : storage) : storage := st.

(** The [fetch] listener has an empty body: it does not call
    [respondWith], and the browser performs the request itself. *)
Definition fetch (net : network) (req : request) (st : storage) : handled :=
  {| answer := net req; caches := st; fetched := [req] |}.

End W0.

(** *** Version 1: [public/service-worker.js] *)
Module W1.

(** [event.waitUntil(self.clients.claim())] *)
Definition activate (st : storage) : storage := st.

(** The [fetch] listener: cache first for every request; when the
    network fails, a navigation gets [caches.match('/')]. *)
Definition fetch (origin : string) (net : network) (req : request)
    (st : storage) : handled :=
  match cache_first v1 origin net req st with
  | Some h => h
  | None =>
      {| answer :=
           if decide (mode req = "navigate")
           then caches_match (GET origin "/") st else None;
         caches := st; fetched := [req] |}
  end.

End W1.

(** *** Version 2: the worker with [CACHE_NAME = 'om-cache-v2'] *)
Module W2.

(** [caches.keys().then(keys => Promise.all(keys.filter(k => k !==
    CACHE_NAME).map(k => caches.delete(k))))], then [clients.claim()]. *)
Definition activate (st : storage) : storage :=
  foldl (λ s k, caches_delete k s) st
    (filter (λ k, k ≠ CACHE_NAME v2) (caches_keys st)).

(** The [fetch] listener: a navigation goes to the network, a 200 is
    stored under the request, a failure gets [caches.match('/index.html')];
    anything else is served cache first, with no fallback. *)
Definition fetch (origin : string) (net : network) (req : request)
    (st : storage) : handled :=
  if decide (mode req = "navigate") then
    match net req with
    | Some resp =>
        {| answer := Some resp;
           caches := if (status resp =? 200)%nat
                     then cache_put (CACHE_NAME v2) req resp st else st;
           fetched := [req] |}
    | None =>
        {| answer := caches_match (GET origin "/index.html") st;
           caches := st; fetched := [req] |}
    end
  else
    match cache_first v2 origin net req st with
    | Some h => h
    | None => {| answer := None; caches := st; fetched := [req] |}
    end.

End W2.

End Worker.

(** ** Sample data *)

Module Sample.

Import Amount App.

(** A stored transaction of the first component. *)
Definition tx (id status : string) (created : Z) : record :=
  list_to_map
    [ ("id", VStr id); ("type", VStr "deposit");
      ("nom_complet", VStr "Awa Traore"); ("id_document", VStr "B1234567");
      ("telephone", VStr "70112233"); ("montant", int 50000);
      ("status", VStr status); ("created_at", VTime created) ].

Definition A : record := tx "A" "pending" 1000.
Definition B : record := tx "B" "pending" 2000.

Definition dbA : gmap value record := {[ VStr "A" := A ]}.
Definition dbAB : gmap value record := {[ VStr "A" := A; VStr "B" := B ]}.

(** The form of the first component, filled in. *)
Definition formA : form :=
  {| f_type := "deposit"; f_nom_complet := "Awa Traore"; f_prenom := "";
     f_nom := ""; f_id_document := "B1234567"; f_telephone := "70112233";
     f_montant := formatAmountInput "50000" |}.


(** The page of the first component, opened online on a store that holds
    the pending record [A], once its mirror is loaded. *)
Definition loaded : world :=
  run fakeSendToServer Prototype [Mount; Resume 0] (initial dbA true 1000).

(** A click on "Forcer sync": a first [trySync] awaits the transport. *)
Definition forced : world := step fakeSendToServer Prototype ClickForceSync loaded.

(** Then the form is submitted with id [B]; the record is added, the mirror
    reloaded, and [handleSubmit] calls [trySync]. *)
Definition forced_submitted : world :=
  run fakeSendToServer Prototype [Submit formA "B"; Resume 1; Resume 1] forced.

(** From there: the first call runs to its end, the button is clicked
    again, the second call runs to its end, and the third has patched the
    store but not yet reloaded the mirror. *)
Definition stale : world :=
  run fakeSendToServer Prototype
    [ Resume 0; Resume 1; Resume 1; ClickForceSync;
      Resume 0; Resume 1; Resume 1; Resume 0; Resume 0 ] forced_submitted.

(** A fresh page on an empty store, after a first form went through. *)
Definition first_submit : world :=
  run fakeSendToServer Prototype
    [Mount; Resume 0; Submit formA "A"; Resume 0; Resume 0]
    (initial ∅ true 1000).

(** The page, offline, with the pending record [A] in its mirror. *)
Definition offline : world := step fakeSendToServer Prototype GoOffline loaded.

(** A transport that acknowledges [A] only. *)
Definition accept_A (batch : list record) : reply :=
  Answer (Some {| ok := true; syncedIds := [VStr "A"] |}).

(** A page whose store and mirror hold the pending records [A] and [B]. *)
Definition pageAB : world :=
  setTransactions [B; A] (initial dbAB true 3000).

Definition origin : string := "https://mm.example".

(** A network that answers every request with a 200 whose body names the
    deployment and the URL. *)
Definition net (deployment : string) : Worker.network :=
  λ req, Some {| Worker.status := 200;
                 Worker.body := deployment ++ ":" ++ Worker.url req |}.

(** A navigation to the application's root. *)
Definition navigate_root : Worker.request :=
  {| Worker.url := origin ++ "/"; Worker.method := "GET";
     Worker.mode := "navigate" |}.

(** No network. *)
Definition offline_net : Worker.network := λ _, None.

(** The caches once version 1 is installed and active. *)
Definition caches_v1 : Worker.storage :=
  Worker.W1.activate (Worker.install Worker.v1 origin (net "first") []).2.

(** The caches once version 2 is installed and active on a fresh origin,
    and then version 1 is installed and activated over it. *)
Definition caches_v2_then_v1 : Worker.storage :=
  Worker.W1.activate
    (Worker.install Worker.v1 origin (net "first")
       (Worker.W2.activate
          (Worker.install Worker.v2 origin (net "second") []).2)).2.

(** The caches once version 2 is installed and active over version 1. *)
Definition caches_v1_then_v2 : Worker.storage :=
  Worker.W2.activate
    (Worker.install Worker.v2 origin (net "second") caches_v1).2.

End Sample.

(** ** Identifiers: [uuidv4] *)

Module Uuid.

(** [v.toString(16)] *)
Definition toString16 (v : nat) : string :=
  HexadecimalString.NilZero.string_of_uint (Nat.to_hex_uint v).

Definition template : string := "xxxxxxxx-xxxx-4xxx-yxxx-xxxxxxxxxxxx".

(** [c === 'x' ? r : (r & 0x3) | 0x8] *)
Definition nibble (c : ascii) (r : nat) : nat :=
  if decide (c = "x"%char) then r else Nat.lor (Nat.land r 3) 8.

(** [.replace(/[xy]/g, function (c) { ... })]: the callback runs once per
    [x] or [y], from left to right; [rnd i] is what [(Math.random() * 16) | 0]
    gives at its [i]-th evaluation. *)
Fixpoint replace_xy (rnd : nat → nat) (i : nat) (s : string) : string :=
  match s with
  | EmptyString => EmptyString
  | String c r =>
      if decide (c = "x"%char ∨ c = "y"%char)
      then toString16 (nibble c (rnd i)) ++ replace_xy rnd (S i) r
      else String c (replace_xy rnd i r)
  end.

(** [uuidv4()] *)
Definition uuidv4 (rnd : nat → nat) : string := replace_xy rnd 0 template.

(** A lower-case hexadecimal digit. *)
Definition is_hex (c : ascii) : bool :=
  Amount.is_digit c
  || ((97 <=? Amount.code c)%nat && (Amount.code c <=? 102)%nat).

(** What a character of the result may be, given the character of the
    template at its place. *)
Definition fits (t c : ascii) : Prop :=
  if decide (t = "x"%char) then is_hex c = true
  else if decide (t = "y"%char) then c ∈ ["8"; "9"; "a"; "b"]%char
  else c = t.

End Uuid.

(** ** The history view of the first component: pages *)

Module Paging.

Local Open Scope Z_scope.

Definition pageSize : Z := 5.

(** [Math.ceil(a / b)], for [b] above zero. *)
Definition ceil_div (a b : Z) : Z := - ((- a) / b).

(** A relative index of [Array.prototype.slice]: counted from the end when
    negative, and clamped to the array. *)
Definition rel_index (len i : Z) : Z :=
  if i <? 0 then Z.max (len + i) 0 else Z.min i len.

(** [l.slice(s, e)] *)
Definition slice {A} (l : list A) (s e : Z) : list A :=
  let len := Z.of_nat (length l) in
  let k := rel_index len s in
  let final := rel_index len e in
  take (Z.to_nat (Z.max (final - k) 0)) (drop (Z.to_nat k) l).

(** [Math.max(1, Math.ceil(totalResults / pageSize))] *)
Definition totalPages (totalResults : nat) : Z :=
  Z.max 1 (ceil_div (Z.of_nat totalResults) pageSize).

(** [Math.min(page, totalPages)] *)
Definition currentPage (page : Z) (totalResults : nat) : Z :=
  Z.min page (totalPages totalResults).

Definition startIndex (page : Z) (totalResults : nat) : Z :=
  (currentPage page totalResults - 1) * pageSize.

(** [filteredTransactions.slice(startIndex, startIndex + pageSize)] *)
Definition pagedTransactions {A} (l : list A) (page : Z) : list A :=
  slice l (startIndex page (length l))
          (startIndex page (length l) + pageSize).

(** [goToPage(p)]: the value given to [setPage]. *)
Definition goToPage (p : Z) (totalResults : nat) : Z :=
  Z.max 1 (Z.min (totalPages totalResults) p).

(** What the pagination bar shows: a page number or ['…']. *)
Inductive item :=
  | Num (p : Z)
  | Dots.

#[global] Instance item_eq_dec : EqDecision item.
Proof. solve_decision. Defined.

(** [getPageItems()], for the current page and the number of pages; the
    [for] loop runs [i] from [Math.max(2, currentPage - delta)] to
    [Math.min(totalPages - 1, currentPage + delta)], [delta] being 1. *)
Definition getPageItems (cur total : Z) : list item :=
  let delta := 1 in
  let lo := Z.max 2 (cur - delta) in
  let hi := Z.min (total - 1) (cur + delta) in
  let range := Num <$> seqZ lo (hi - lo + 1) in
  ((if 1 <=? total then [Num 1] else [])
   ++ (if 2 <? cur - delta then [Dots] else [])
   ++ range
   ++ (if cur + delta <? total - 1 then [Dots] else [])
   ++ (if 1 <? total then [Num total] else []))%list.

(** The page numbers among the items. *)
Definition numbers (items : list item) : list Z :=
  omap (λ i, match i with Num p => Some p | Dots => None end) items.

End Paging.

(** ** What a run may change of a stored record *)

Module Keeping.

Import Store App.

(** [r'] is [r] but for its [status] and [synced_at]. *)
Definition same_entry (r r' : record) : Prop :=
  ∀ f, f ≠ "status" → f ≠ "synced_at" → r' !! f = r !! f.

(** Every record of [d] is still in [d'], under the same key, with the
    fields it was recorded with; and what was [synced] is [synced]. *)
Definition keeps (d d' : store) : Prop :=
  ∀ k r, d !! k = Some r →
    ∃ r', d' !! k = Some r' ∧ same_entry r r'
          ∧ (prop r "status" = VStr "synced" → prop r' "status" = VStr "synced").

(** The patches a suspended [trySync] is about to apply are the ones it
    builds: [{ status: 'synced', synced_at: ... }]. *)
Definition task_synced (t : task) : Prop :=
  match t with
  | SyncAwaitUpdates _ ups => Forall (λ u, ∃ t, u.2 = synced_patch t) ups
  | _ => True
  end.

Definition patches_synced (w : world) : Prop :=
  wf_store (db w) ∧ Forall task_synced (tasks w).

#[global] Instance error_eq_dec : EqDecision error.
Proof. solve_decision. Defined.

#[global] Instance outcome_eq_dec `{EqDecision A} : EqDecision (outcome A).
Proof. solve_decision. Defined.

#[global] Instance form_eq_dec : EqDecision form.
Proof. solve_decision. Defined.

#[global] Instance event_eq_dec : EqDecision event.
Proof. solve_decision. Defined.

(** When the record was created, if its [created_at] is a date. *)
Definition created (r : record) : option Z := date_ms (prop r "created_at").

(** [a] was created no earlier than [b]. *)
Definition not_older (a b : record) : Prop :=
  ∃ ta tb, created a = Some ta ∧ created b = Some tb ∧ (tb ≤ ta)%Z.

(** The ids of a list of records. *)
Definition ids (l : list record) : list value := map (λ t, prop t "id") l.

(** The reply does not acknowledge anything: a rejection, a falsy value, or
    [ok] not set. *)
Definition refused (r : reply) : bool :=
  match r with
  | Answer (Some res) => negb (ok res)
  | Answer None => true
  | Failure => true
  end.

End Keeping.

(** * Properties *)

Import Store Amount App.

(** ** The Local Transaction Store *)

Lemma wf_store_empty : wf_store ∅.
Proof. intros k r H. by rewrite lookup_empty in H. Qed.

Lemma wf_store_insert (db : store) (r : record) :
  wf_store db → valid_key (prop r keyPath) = true →
  wf_store (<[prop r keyPath := r]> db).
Proof.
  intros Hwf Hk k r'. rewrite lookup_insert.
  case_decide as Hkk.
  - intros [= <-]. by subst k.
  - apply Hwf.
Qed.

Lemma addTransaction_wf (tx : record) (db : store) :
  wf_store db → wf_store (addTransaction tx db).2.
Proof.
  intros Hwf. unfold addTransaction.
  destruct (valid_key (prop tx keyPath)) eqn:Hk; [|done].
  destruct (db !! prop tx keyPath); [done|].
  by apply wf_store_insert.
Qed.

Lemma spread_lookup (r patch : record) (f : string) :
  spread r patch !! f = match patch !! f with Some x => Some x | None => r !! f end.
Proof.
  unfold spread. rewrite lookup_union.
  destruct (patch !! f), (r !! f); done.
Qed.

Lemma spread_prop_keep (r patch : record) (f : string) :
  patch !! f = None → prop (spread r patch) f = prop r f.
Proof. intros H. unfold prop. by rewrite spread_lookup, H. Qed.

Lemma updateTransaction_wf (id : value) (patch : record) (db : store) :
  wf_store db → wf_store (updateTransaction id patch db).2.
Proof.
  intros Hwf. unfold updateTransaction.
  destruct (valid_key id); [|done].
  destruct (db !! id) as [r|]; [|done].
  destruct (valid_key (prop (spread r patch) keyPath)) eqn:Hk; [|done].
  by apply wf_store_insert.
Qed.

(** C5. [addTransaction] on a record whose id is taken rejects with
    [ConstraintError] (the spec's AlreadyExists) and leaves the store as it
    was; on a record whose id is free it resolves and the store then holds
    the record under that id and every other entry as before. *)
Theorem addTransaction_taken_or_fresh (tx : record) (db : store) :
  valid_key (prop tx keyPath) = true →
  (is_Some (db !! prop tx keyPath) →
     addTransaction tx db = (Rejected ConstraintError, db))
  ∧ (db !! prop tx keyPath = None →
       ∃ db', addTransaction tx db = (Resolved (prop tx keyPath), db')
         ∧ db' !! prop tx keyPath = Some tx
         ∧ (∀ k, k ≠ prop tx keyPath → db' !! k = db !! k)
         ∧ size db' = S (size db)).
Proof.
  intros Hk. unfold addTransaction. rewrite Hk. split.
  - intros [r Hr]. by rewrite Hr.
  - intros Hnone. rewrite Hnone. eexists. split; [done|].
    split; [by rewrite lookup_insert_eq|].
    split; [by intros k Hne; rewrite lookup_insert_ne|].
    by apply map_size_insert_None.
Qed.

(** C6. [updateTransaction] on an id the store does not hold rejects with
    'Not found' and leaves the store as it was; on an id it holds, the
    merged record has the patch's value for every field the patch names and
    the old value for every other field, and it is what the store then
    holds (under the id itself when the patch does not name [id]). *)
Theorem updateTransaction_absent_or_merged (id : value) (patch : record)
    (db : store) :
  wf_store db → valid_key id = true →
  (db !! id = None → updateTransaction id patch db = (Rejected NotFound, db))
  ∧ (∀ r, db !! id = Some r →
       let updated := spread r patch in
       (∀ f, updated !! f
             = match patch !! f with Some x => Some x | None => r !! f end)
       ∧ (valid_key (prop updated keyPath) = true →
            updateTransaction id patch db
            = (Resolved updated, <[prop updated keyPath := updated]> db))
       ∧ (patch !! keyPath = None →
            updateTransaction id patch db
            = (Resolved updated, <[id := updated]> db))).
Proof.
  intros Hwf Hid. unfold updateTransaction. rewrite Hid. split.
  - intros Hnone. by rewrite Hnone.
  - intros r Hr. cbv zeta. rewrite Hr. set (updated := spread r patch).
    split; [intros f; apply spread_lookup|].
    split.
    + intros Hk. by rewrite Hk.
    + intros Hp. destruct (Hwf _ _ Hr) as [Hrid _].
      assert (prop updated keyPath = id) as ->.
      { unfold updated. by rewrite spread_prop_keep. }
      by rewrite Hid.
Qed.

Lemma addTransaction_taken_or_fresh_witness :
  addTransaction Sample.A Sample.dbA = (Rejected ConstraintError, Sample.dbA)
  ∧ ∃ db', addTransaction Sample.B Sample.dbA = (Resolved (VStr "B"), db')
      ∧ db' !! VStr "B" = Some Sample.B
      ∧ (∀ k, k ≠ VStr "B" → db' !! k = Sample.dbA !! k)
      ∧ size db' = 2%nat.
Proof.
  split.
  - apply (addTransaction_taken_or_fresh Sample.A Sample.dbA); [reflexivity|].
    exists Sample.A. reflexivity.
  - apply (addTransaction_taken_or_fresh Sample.B Sample.dbA); reflexivity.
Defined.

Lemma updateTransaction_absent_or_merged_witness :
  updateTransaction (VStr "B") (synced_patch 5) Sample.dbA
  = (Rejected NotFound, Sample.dbA)
  ∧ updateTransaction (VStr "A") (synced_patch 5) Sample.dbA
    = (Resolved (spread Sample.A (synced_patch 5)),
       <[VStr "A" := spread Sample.A (synced_patch 5)]> Sample.dbA).
Proof.
  assert (wf_store Sample.dbA) as Hwf by compute_done.
  split.
  - apply (updateTransaction_absent_or_merged _ _ _ Hwf); reflexivity.
  - destruct (updateTransaction_absent_or_merged (VStr "A") (synced_patch 5)
                Sample.dbA Hwf eq_refl) as [_ H].
    destruct (H Sample.A eq_refl) as (_ & _ & H3). apply H3. reflexivity.
Defined.

(** ** Amounts *)

Lemma keep_all_chars (p : ascii → bool) (s : string) :
  all_chars p (keep p s) = true.
Proof.
  induction s as [|c r IH]; simpl; [done|].
  destruct (p c) eqn:Hc; simpl; [by rewrite Hc|done].
Qed.

Lemma span_all_chars (p : ascii → bool) (s : string) :
  all_chars p s = true → span p s = (s, "").
Proof.
  induction s as [|c r IH]; simpl; [done|].
  intros [Hc Hr]%andb_prop. rewrite Hc, (IH Hr). done.
Qed.

Lemma digit_not_space (c : ascii) : is_digit c = true → is_space c = false.
Proof.
  unfold is_digit, is_space. generalize (code c). intros n H.
  apply andb_prop in H as [H1%Nat.leb_le H2%Nat.leb_le].
  apply orb_false_intro; [apply orb_false_intro|].
  - apply andb_false_intro2. apply Nat.leb_gt. lia.
  - apply Nat.eqb_neq. lia.
  - apply Nat.eqb_neq. lia.
Qed.

Lemma digit_val_nonneg (c : ascii) : is_digit c = true → (0 ≤ digit_val c)%Z.
Proof.
  unfold is_digit, digit_val. generalize (code c). intros n H.
  apply andb_prop in H as [H1%Nat.leb_le _]. lia.
Qed.

Lemma digits_acc_nonneg (s : string) (acc : Z) :
  (0 ≤ acc)%Z → all_chars is_digit s = true → (0 ≤ digits_acc acc s)%Z.
Proof.
  revert acc. induction s as [|c r IH]; simpl; intros acc Hacc Hs; [done|].
  apply andb_prop in Hs as [Hc Hr].
  apply IH; [|done]. pose proof (digit_val_nonneg c Hc). lia.
Qed.

Lemma sign_digit (c : ascii) (r : string) :
  is_digit c = true → sign (String c r) = (1%Z, String c r).
Proof.
  destruct c as [[] [] [] [] [] [] [] []]; try discriminate; reflexivity.
Qed.

(** ** Numbers read from digits *)

Section NumberFacts.

Local Open Scope Z_scope.

Lemma round_even_bounds (n d : Z) :
  0 ≤ n → 0 < d → n / d ≤ round_even n d ≤ n / d + 1.
Proof.
  intros Hn Hd. unfold round_even.
  destruct (2 * (n mod d) ?= d); [destruct (Z.even (n / d))| |]; lia.
Qed.

Lemma round_even_whole (n : Z) : round_even n 1 = n.
Proof.
  unfold round_even. rewrite Z.mod_1_r, Z.div_1_r. reflexivity.
Qed.

Lemma ilog2_whole (z : Z) : 0 < z → ilog2 z 1 = Z.log2 z.
Proof.
  intros Hz. unfold ilog2, num_at, den_at.
  change (Z.log2 1) with 0. rewrite Z.sub_0_r.
  pose proof (Z.log2_nonneg z) as HL.
  rewrite (Z.max_r 0 (Z.log2 z)), (Z.max_l 0 (- Z.log2 z)) by lia.
  destruct (Z.log2_spec z Hz) as [Hlo _].
  rewrite Z.mul_1_l, Z.pow_0_r, Z.mul_1_r.
  by rewrite (proj2 (Z.leb_le _ _) Hlo).
Qed.

Lemma VNum_eq (a b : Q) : (a == b)%Q → VNum (Q2Qc a) = VNum (Q2Qc b).
Proof.
  intros H. f_equal. apply Qc_is_canon. simpl. by rewrite !Qred_correct.
Qed.

(** A whole number below [2^53] is a double: rounding leaves it as it is. *)
Lemma number_small (z : Z) : 0 ≤ z < 2 ^ 53 → number (inject_Z z) = int z.
Proof.
  intros [Hz Hlt]. unfold number. cbn [Qnum Qden inject_Z].
  rewrite (Z.abs_eq z) by done.
  destruct (Z.eqb_spec z 0) as [->|Hne]; [done|].
  assert (0 < z) as Hpos by lia.
  rewrite (ilog2_whole z Hpos).
  assert (0 ≤ Z.log2 z < 53) as HL.
  { split; [apply Z.log2_nonneg|]. by apply Z.log2_lt_pow2. }
  rewrite (Z.max_l (Z.log2 z - 52)) by lia.
  unfold num_at, den_at.
  rewrite (Z.max_r 0 (- (Z.log2 z - 52))), (Z.max_l 0 (Z.log2 z - 52)) by lia.
  rewrite Z.pow_0_r, Z.mul_1_l, round_even_whole.
  rewrite Z.opp_involutive, (Z.max_l 0 (Z.log2 z - 52)) by lia.
  rewrite Z.log2_mul_pow2 by lia.
  rewrite (proj2 (Z.leb_gt _ _)) by lia.
  rewrite Z.pow_0_r, Z.mul_1_r, Z.mul_1_l, (Z.sgn_pos z) by done.
  rewrite Z.mul_1_l. apply VNum_eq. unfold Qeq. cbn [Qnum Qden inject_Z].
  rewrite Z2Pos.id by (apply Z.pow_pos_nonneg; lia). lia.
Qed.

(** The Number of a whole number that is not negative is such a whole
    number again, or the positive infinity. *)
Lemma number_whole (z : Z) :
  0 ≤ z →
  number (inject_Z z) = VInf false
  ∨ ∃ z', 0 ≤ z' ∧ number (inject_Z z) = int z'.
Proof.
  intros Hz. destruct (Z.lt_ge_cases z (2 ^ 53)) as [Hlt|Hge].
  { right. exists z. split; [done|]. by apply number_small. }
  unfold number. cbn [Qnum Qden inject_Z].
  rewrite (Z.abs_eq z) by done.
  assert (0 < z) as Hpos by lia.
  destruct (Z.eqb_spec z 0) as [|_]; [lia|].
  rewrite (ilog2_whole z Hpos).
  assert (53 ≤ Z.log2 z) as HL.
  { change 53 with (Z.log2 (2 ^ 53)). by apply Z.log2_le_mono. }
  rewrite (Z.max_l (Z.log2 z - 52)) by lia.
  unfold num_at, den_at.
  rewrite (Z.max_l 0 (- (Z.log2 z - 52))), (Z.max_r 0 (Z.log2 z - 52)) by lia.
  rewrite Z.pow_0_r, Z.mul_1_l, Z.mul_1_r.
  rewrite Z.opp_involutive, (Z.max_r 0 (Z.log2 z - 52)) by lia.
  assert ((z <? 0) = false) as -> by (apply Z.ltb_ge; lia).
  destruct (1024 <=? _); [by left|right].
  set (k := Z.log2 z - 52). set (m := round_even z (2 ^ k)).
  assert (0 ≤ m * 2 ^ k) as Hm.
  { assert (0 < 2 ^ k) by (apply Z.pow_pos_nonneg; lia).
    pose proof (round_even_bounds z (2 ^ k) Hz H).
    pose proof (Z.div_pos z (2 ^ k) Hz H). subst m. nia. }
  exists (m * 2 ^ k). split; [done|].
  rewrite (Z.sgn_pos z) by done. apply VNum_eq. unfold Qeq.
  cbn [Qnum Qden inject_Z]. change (Z.pos (Z.to_pos (2 ^ 0))) with 1. lia.
Qed.

(** From [2^1024] on it is the infinity. *)
Lemma number_overflow (z : Z) : 2 ^ 1024 ≤ z → number (inject_Z z) = VInf false.
Proof.
  intros Hge.
  assert (0 < 2 ^ 1024) as H0 by (by apply Z.pow_pos_nonneg).
  assert (0 < z) as Hpos by lia.
  unfold number. cbn [Qnum Qden inject_Z].
  rewrite (Z.abs_eq z) by lia.
  destruct (Z.eqb_spec z 0) as [|_]; [lia|].
  rewrite (ilog2_whole z Hpos).
  assert (1024 ≤ Z.log2 z) as HL.
  { rewrite <- (Z.log2_pow2 1024) by done. by apply Z.log2_le_mono. }
  rewrite (Z.max_l (Z.log2 z - 52)) by lia.
  unfold num_at, den_at.
  rewrite (Z.max_l 0 (- (Z.log2 z - 52))), (Z.max_r 0 (Z.log2 z - 52)) by lia.
  rewrite Z.pow_0_r, Z.mul_1_l, Z.mul_1_r.
  set (k := Z.log2 z - 52).
  assert (0 < 2 ^ k) as Hk by (apply Z.pow_pos_nonneg; lia).
  assert (2 ^ 52 ≤ round_even z (2 ^ k)) as Hm.
  { pose proof (round_even_bounds z (2 ^ k) (Z.lt_le_incl _ _ Hpos) Hk) as [Hb _].
    etrans; [|exact Hb].
    destruct (Z.log2_spec z Hpos) as [Hlo _].
    replace (Z.log2 z) with (52 + k) in Hlo by (subst k; lia).
    rewrite Z.pow_add_r in Hlo by (subst k; lia).
    apply Z.div_le_lower_bound; lia. }
  assert (52 ≤ Z.log2 (round_even z (2 ^ k))) as Hlog.
  { rewrite <- (Z.log2_pow2 52) by done. by apply Z.log2_le_mono. }
  rewrite (proj2 (Z.leb_le _ _)) by (subst k; lia).
  by rewrite (proj2 (Z.ltb_ge _ _)) by lia.
Qed.

Lemma number_two_53 : number (inject_Z (2 ^ 53)) = int (2 ^ 53).
Proof. vm_compute. apply f_equal, Qc_is_canon. reflexivity. Qed.

End NumberFacts.

(** [parseInt] of a non-empty string of digits is the Number value of the
    integer it denotes. *)
Lemma parseInt10_digits (ds : string) :
  ds ≠ "" → all_chars is_digit ds = true →
  parseInt10 ds = number (inject_Z (digits_val ds)).
Proof.
  intros Hne Hall. destruct ds as [|c r]; [done|].
  pose proof Hall as Hall'. simpl in Hall'.
  apply andb_prop in Hall' as [Hc Hr].
  unfold parseInt10. cbn [drop_while]. rewrite (digit_not_space c Hc).
  rewrite (sign_digit c r Hc), (span_all_chars _ _ Hall).
  destruct (decide (String c r = "")) as [|_]; [done|].
  by rewrite Z.mul_1_l.
Qed.

(** Removing the white space from what [thousands] makes of a string of
    digits gives the digits back. *)
Lemma keep_thousands_from (prev : bool) (ds : string) :
  all_chars is_digit ds = true →
  keep (λ c, negb (is_space c)) (thousands_from prev ds) = ds.
Proof.
  revert prev. induction ds as [|c r IH]; intros prev Hall; [done|].
  pose proof Hall as Hall'. simpl in Hall'.
  apply andb_prop in Hall' as [Hc Hr].
  cbn [thousands_from].
  assert (keep (λ c0, negb (is_space c0))
            (String c (thousands_from (is_word c) r)) = String c r) as Hrest.
  { cbn [keep]. rewrite (digit_not_space c Hc). cbn [negb].
    by rewrite (IH _ Hr). }
  destruct (prev && groups_of_three_ahead (String c r)); [|done].
  cbn [keep]. exact Hrest.
Qed.

Lemma parseAmount_formatAmountInput (raw : string) :
  formatAmountInput raw ≠ "" →
  parseAmount (formatAmountInput raw)
  = number (inject_Z (digits_val (keep is_digit raw)))
  ∧ (0 ≤ digits_val (keep is_digit raw))%Z.
Proof.
  unfold formatAmountInput, parseAmount.
  destruct (decide (keep is_digit raw = "")) as [|Hne]; [done|]. intros _.
  pose proof (keep_all_chars is_digit raw) as Hall.
  unfold thousands. rewrite (keep_thousands_from _ _ Hall).
  destruct (decide (keep is_digit raw = "")) as [|_]; [done|].
  split; [by apply parseInt10_digits|].
  by apply digits_acc_nonneg.
Qed.

Lemma int_nonneg (n : Z) : (0 ≤ n)%Z → amount_nonneg (int n) = true.
Proof.
  intros Hn. unfold amount_nonneg, int. apply Qle_bool_iff.
  change (this (Q2Qc (inject_Z n))) with (Qred (inject_Z n)).
  rewrite Qred_correct. unfold Qle. simpl. lia.
Qed.

Lemma int_whole (n : Z) : amount_whole (int n) = true.
Proof.
  unfold amount_whole, int.
  change (this (Q2Qc (inject_Z n))) with (Qred (inject_Z n)).
  unfold Qred, inject_Z.
  pose proof (Z.ggcd_gcd n 1) as Hg.
  pose proof (Z.ggcd_correct_divisors n 1) as Hd.
  destruct (Z.ggcd n 1) as [g [a b]]. simpl in *.
  rewrite Z.gcd_1_r in Hg. subst g. destruct Hd as [_ Hb].
  assert (b = 1%Z) as -> by lia. reflexivity.
Qed.

(** What [parseInt] makes of a string of digits: never negative, whole
    unless it is the infinity, the integer itself up to [2^53], and the
    infinity from [2^1024] on. *)
Lemma number_amount (z : Z) :
  (0 ≤ z)%Z →
  amount_nonneg (number (inject_Z z)) = true
  ∧ (amount_whole (number (inject_Z z)) = true
     ∨ number (inject_Z z) = VInf false)
  ∧ ((z ≤ 2 ^ 53)%Z → number (inject_Z z) = int z)
  ∧ ((2 ^ 1024 ≤ z)%Z → number (inject_Z z) = VInf false).
Proof.
  intros Hz. split_and!.
  - destruct (number_whole z Hz) as [->|(z' & Hz' & ->)];
      [done|by apply int_nonneg].
  - destruct (number_whole z Hz) as [->|(z' & Hz' & ->)];
      [by right|left; apply int_whole].
  - intros Hle. destruct (decide (z = 2 ^ 53)%Z) as [->|Hne];
      [apply number_two_53|apply number_small; lia].
  - apply number_overflow.
Qed.



(** In the first component too the amount recorded is a double, not the
    integer typed: beyond [2^53] the digits are rounded, and a long enough
    run of digits is recorded as [Infinity]. *)
Lemma handleSubmit_prototype_amount_rounded :
  parseAmount (formatAmountInput "9007199254740993") = int 9007199254740992
  ∧ parseAmount (formatAmountInput (string_of_list_ascii (repeat "9"%char 400)))
    = VInf false.
Proof.
  split; vm_compute; [apply f_equal, Qc_is_canon|]; reflexivity.
Qed.



(** ** The Synchronization Engine and the Connectivity Monitor *)

Lemma trySync_call_sent (v : variant) (c : caller) (snap : list record)
    (w : world) :
  sent (trySync_call v c snap w).1 = (sent w ++ submitted snap)%list
  ∧ sync_calls (trySync_call v c snap w).1 = S (sync_calls w)
  ∧ db (trySync_call v c snap w).1 = db w
  ∧ (trySync_call v c snap w).2
    = match filter is_pending snap with
      | [] => None
      | p => Some (SyncAwaitSend c p)
      end.
Proof.
  unfold trySync_call, submitted.
  destruct (filter is_pending snap) as [|t p]; cbn.
  - rewrite app_nil_r. by destruct c, v.
  - done.
Qed.



(** C2, as stated, fails.  The page is offline with the pending record
    [A] in its mirror; the browser fires [online]: the flag turns, and no
    [trySync] is entered, nothing goes to the transport, no call is
    suspended. *)
Lemma online_event_starts_no_sync :
  online Sample.offline = false
  ∧ filter is_pending (transactions Sample.offline) = [Sample.A]
  ∧ online (step fakeSendToServer Prototype GoOnline Sample.offline) = true
  ∧ sync_calls (step fakeSendToServer Prototype GoOnline Sample.offline) = 0%nat
  ∧ sent (step fakeSendToServer Prototype GoOnline Sample.offline) = []
  ∧ tasks (step fakeSendToServer Prototype GoOnline Sample.offline) = [].
Proof. compute_done. Qed.

(** C2, amended.  The connectivity listeners only set the [online] flag:
    over any sequence of [online] and [offline] events, however many
    transitions it holds, [trySync] is never entered, nothing is handed to
    the transport, and the store, the mirror and the suspended calls stay
    as they were; after an [online] event the flag is set.  Of all the
    events of the page only two enter [trySync], and only while
    [navigator.onLine] holds: a click on "Forcer sync", and the
    continuation of a [handleSubmit] whose [loadTransactions] has
    answered. *)
Theorem connectivity_events_only_set_flag (send : list record → reply)
    (v : variant) (es : list event) (w : world) :
  forallb connectivity es = true →
  sync_calls (run send v es w) = sync_calls w
  ∧ sent (run send v es w) = sent w
  ∧ tasks (run send v es w) = tasks w
  ∧ db (run send v es w) = db w
  ∧ transactions (run send v es w) = transactions w
  ∧ syncing (run send v es w) = syncing w
  ∧ online (run send v (es ++ [GoOnline])%list w) = true
  ∧ (∀ e w0,
       sync_calls (step send v e w0) = sync_calls w0
       ∨ (onLine w0 = true
          ∧ (e = ClickForceSync
             ∨ ∃ i snap, e = Resume i
                         ∧ tasks w0 !! i = Some (SubmitAwaitLoad snap)))).
Proof.
  intros Hes. unfold run. rewrite foldl_app. cbn [foldl step setOnline online].
  split_and!; try done;
    try (clear -Hes;
         revert w; induction es as [|e es IH]; intros w; [done|];
         cbn [forallb] in Hes; apply andb_prop in Hes as [He Hes];
         cbn [foldl]; rewrite (IH Hes); by destruct e).
  clear. intros e w.
  assert (∀ w' ot, sync_calls (push_task ot w') = sync_calls w') as Hpush
    by (by intros w' []).
  destruct e as [| | |f id| |i|dt]; cbn [step]; try (by left).
  - destruct (match v with Prototype => isSubmitting w | MobiLedger => false end);
      [by left|]. unfold handleSubmit_call.
    destruct (handleSubmit_tx v f id (now w)); left; rewrite Hpush;
      by destruct v.
  - destruct (online w && negb (syncing w)); [|by left].
    unfold forceSync. destruct (onLine w) eqn:Hon; cbn [negb].
    + right. split; [done|by left].
    + by left.
  - destruct (tasks w !! i) as [t|] eqn:Hi; [|by left].
    destruct (resume send v t (set_tasks (delete i (tasks w)) w))
      as [w' ot] eqn:Hres. rewrite Hpush.
    destruct t as [|snap tx|snap|c batch|c ups|c|]; cbn [resume] in Hres.
    + left. by injection Hres as <- _.
    + left. unfold submit_added in Hres.
      destruct (addTransaction tx (db _)) as [[]?]; injection Hres as <- _;
        by destruct v.
    + unfold submit_loaded in Hres.
      destruct (onLine (loadTransactions (set_tasks (delete i (tasks w)) w)))
        eqn:Hon.
      * right. split; [exact Hon|]. right. by exists i, snap.
      * left. injection Hres as <- _. by destruct v.
    + left. unfold sync_reply in Hres.
      destruct (send batch) as [[res|]|]; [destruct (ok res)|..];
        injection Hres as <- _; by destruct c, v.
    + left. unfold sync_updates in Hres. destruct (apply_updates _ _).
      destruct (existsb _ _); [|destruct (existsb _ _)];
        injection Hres as <- _; by destruct c, v.
    + left. injection Hres as <- _. by destruct c, v.
    + left. by injection Hres as <- _.
Qed.

Lemma connectivity_events_only_set_flag_witness :
  sync_calls (run fakeSendToServer Prototype [GoOnline; GoOffline; GoOnline]
                Sample.offline) = 0%nat
  ∧ sent (run fakeSendToServer Prototype [GoOnline; GoOffline; GoOnline]
            Sample.offline) = [].
Proof.
  destruct (connectivity_events_only_set_flag fakeSendToServer Prototype
              [GoOnline; GoOffline; GoOnline] Sample.offline eq_refl)
    as (-> & -> & _).
  split; reflexivity.
Defined.

(** C3, as stated, fails: [trySync] does not read the store.  On a fresh
    page the first form is submitted: the store then holds a pending
    record, [trySync] is entered once, finds no pending record in the mirror
    of the render it belongs to, and returns.  And in the state [stale] the
    store holds no pending record, the mirror still shows [B] as pending,
    and a click on the button hands [[B]] to the transport. *)
Lemma trySync_filters_mirror_not_store :
  (sync_calls Sample.first_submit = 1%nat
   ∧ length (filter is_pending (getAllTransactions (db Sample.first_submit)))
     = 1%nat
   ∧ sent Sample.first_submit = []
   ∧ tasks Sample.first_submit = [])
  ∧ (filter is_pending (getAllTransactions (db Sample.stale)) = []
     ∧ map (map (λ t, prop t "id")) (sent Sample.stale)
       = [[VStr "A"]; [VStr "A"]; [VStr "B"]]
     ∧ map (map (λ t, prop t "id"))
         (sent (step fakeSendToServer Prototype ClickForceSync Sample.stale))
       = [[VStr "A"]; [VStr "A"]; [VStr "B"]; [VStr "B"]]).
Proof. compute_done. Qed.

(** C3, amended.  Every call to [trySync] filters the [transactions] array
    of the render it was created in (the component's mirror of the store)
    to [status = pending]; it does not read the store, and the store is not
    touched before the transport has answered.  When the filtered list is
    empty the whole call returns at once: nothing goes to the transport and
    nothing is left suspended. *)
Theorem trySync_filters_snapshot (send : list record → reply) (v : variant)
    (c : caller) (snap : list record) (w : world) :
  (∀ d, sent (trySync_call v c snap (set_db d w)).1
        = sent (trySync_call v c snap w).1
        ∧ (trySync_call v c snap (set_db d w)).2 = (trySync_call v c snap w).2)
  ∧ db (trySync_call v c snap w).1 = db w
  ∧ (trySync_call v c snap w).2
    = match filter is_pending snap with
      | [] => None
      | p => Some (SyncAwaitSend c p)
      end
  ∧ (filter is_pending snap = [] →
     trySync send v c snap w = (sync_end v c (setSyncing true (count_sync w)), None)
     ∧ sent (trySync send v c snap w).1 = sent w
     ∧ db (trySync send v c snap w).1 = db w).
Proof.
  split; [|split; [|split]].
  - intros d.
    destruct (trySync_call_sent v c snap (set_db d w)) as (-> & _ & _ & ->).
    by destruct (trySync_call_sent v c snap w) as (-> & _ & _ & ->).
  - by destruct (trySync_call_sent v c snap w) as (_ & _ & -> & _).
  - by destruct (trySync_call_sent v c snap w) as (_ & _ & _ & ->).
  - intros Hnone. unfold trySync, trySync_call. rewrite Hnone. cbn [drive].
    split; [done|]. by destruct c, v.
Qed.

Lemma trySync_filters_snapshot_witness :
  trySync fakeSendToServer Prototype FromForce
    [Sample.tx "A" "synced" 1000] Sample.loaded
  = (sync_end Prototype FromForce (setSyncing true (count_sync Sample.loaded)),
     None).
Proof.
  apply (trySync_filters_snapshot fakeSendToServer Prototype FromForce
           [Sample.tx "A" "synced" 1000] Sample.loaded).
  reflexivity.
Defined.

(** *** A whole cycle against a transport *)

Lemma synced_patch_lookup (t : Z) (f : string) :
  synced_patch t !! f
  = if decide (f = "status") then Some (VStr "synced")
    else if decide (f = "synced_at") then Some (VTime t) else None.
Proof.
  unfold synced_patch. repeat case_decide; simplify_map_eq; done.
Qed.

Lemma spread_idemp (r p : record) : spread (spread r p) p = spread r p.
Proof.
  apply map_eq. intros f. rewrite !spread_lookup. by destruct (p !! f).
Qed.

Lemma updateTransaction_synced (id : value) (t : Z) (d : store) (r : record) :
  wf_store d → d !! id = Some r →
  updateTransaction id (synced_patch t) d
  = (Resolved (spread r (synced_patch t)),
     <[id := spread r (synced_patch t)]> d).
Proof.
  intros Hwf Hr. destruct (Hwf _ _ Hr) as [Hrid Hk].
  unfold updateTransaction. rewrite Hk, Hr.
  rewrite spread_prop_keep by (by rewrite synced_patch_lookup).
  by rewrite Hrid, Hk.
Qed.

(** The updates of one cycle, for ids the store holds: none fails, and the
    store afterwards has the patched record under each of the ids and
    every other entry as before. *)
Lemma apply_updates_synced (ids : list value) (t : Z) (d : store) :
  wf_store d → (∀ id, id ∈ ids → is_Some (d !! id)) →
  existsb is_rejected (apply_updates (map (λ id, (id, synced_patch t)) ids) d).1
  = false
  ∧ existsb is_unsettled
      (apply_updates (map (λ id, (id, synced_patch t)) ids) d).1 = false
  ∧ wf_store (apply_updates (map (λ id, (id, synced_patch t)) ids) d).2
  ∧ ∀ k, (apply_updates (map (λ id, (id, synced_patch t)) ids) d).2 !! k
         = if decide (k ∈ ids)
           then (λ r, spread r (synced_patch t)) <$> d !! k
           else d !! k.
Proof.
  revert d. induction ids as [|id ids IH]; intros d Hwf Hin.
  - cbn. split_and!; done.
  - destruct (Hin id) as [r Hr]; [by left|].
    cbn [map apply_updates]. rewrite (updateTransaction_synced id t d r Hwf Hr).
    set (d1 := <[id := spread r (synced_patch t)]> d).
    assert (wf_store d1) as Hwf1.
    { pose proof (updateTransaction_wf id (synced_patch t) d Hwf) as H.
      by rewrite (updateTransaction_synced id t d r Hwf Hr) in H. }
    assert (∀ i, i ∈ ids → is_Some (d1 !! i)) as Hin1.
    { intros i Hi. unfold d1. rewrite lookup_insert. case_decide; [done|].
      apply Hin. by right. }
    destruct (IH d1 Hwf1 Hin1) as (Hrej & Huns & Hwf2 & Hlook).
    destruct (apply_updates (map (λ id0, (id0, synced_patch t)) ids) d1)
      as [os d2] eqn:Hap.
    cbn [fst snd existsb is_rejected is_unsettled orb] in *.
    split_and!; try done.
    intros k. rewrite Hlook. unfold d1. rewrite lookup_insert.
    destruct (decide (id = k)) as [->|Hne].
    + rewrite Hr. cbn. rewrite spread_idemp.
      rewrite (decide_True (P := k ∈ k :: ids)) by left.
      by case_decide.
    + destruct (decide (k ∈ ids)) as [Hk|Hk].
      * by rewrite (decide_True (P := k ∈ id :: ids)) by (by right).
      * rewrite (decide_False (P := k ∈ id :: ids)); [done|].
        intros [->|?]%elem_of_cons; done.
Qed.

Lemma drive_step (send : list record → reply) (v : variant) (n : nat)
    (w : world) (t : task) :
  drive send v (S n) (w, Some t) = drive send v n (resume send v t w).
Proof. done. Qed.

Lemma drive_done (send : list record → reply) (v : variant) (n : nat)
    (w : world) :
  drive send v n (w, None) = (w, None).
Proof. by destruct n. Qed.

(** A cycle that the transport answers with [ok] and ids the store holds
    runs to its end; the store afterwards is the old one with the patch
    applied at those ids. *)
Lemma trySync_answered (send : list record → reply) (v : variant)
    (c : caller) (snap : list record) (w : world) (accepted : list value) :
  wf_store (db w) →
  filter is_pending snap ≠ [] →
  send (filter is_pending snap)
  = Answer (Some {| ok := true; syncedIds := accepted |}) →
  (∀ id, id ∈ accepted → is_Some (db w !! id)) →
  (trySync send v c snap w).2 = None
  ∧ sent (trySync send v c snap w).1 = (sent w ++ [filter is_pending snap])%list
  ∧ ∀ k, db (trySync send v c snap w).1 !! k
         = if decide (k ∈ accepted)
           then (λ r, spread r (synced_patch (now w))) <$> db w !! k
           else db w !! k.
Proof.
  intros Hwf Hne Hsend Hin.
  destruct (apply_updates_synced accepted (now w) (db w) Hwf Hin)
    as (Hrej & Huns & _ & Hlook).
  unfold trySync, trySync_call.
  destruct (filter is_pending snap) as [|p0 p] eqn:Hp; [done|].
  rewrite drive_step. cbn [resume]. unfold sync_reply. rewrite Hsend.
  cbn [ok syncedIds]. rewrite drive_step. cbn [resume]. unfold sync_updates.
  cbn [db now log_sent setSyncing count_sync].
  destruct (apply_updates (map (λ id, (id, synced_patch (now w))) accepted)
              (db w)) as [outs d] eqn:Hap.
  cbn [fst snd] in Hrej, Huns, Hlook. rewrite Hrej, Huns.
  rewrite drive_step. cbn [resume]. unfold sync_load. rewrite drive_done.
  cbn [fst snd].
  split; [done|]. split; [by destruct c, v|].
  intros k. rewrite <- Hlook. by destruct c, v.
Qed.

Lemma spread_synced_fields (r : record) (t : Z) :
  prop (spread r (synced_patch t)) "status" = VStr "synced"
  ∧ prop (spread r (synced_patch t)) "synced_at" = VTime t
  ∧ ∀ f, f ≠ "status" → f ≠ "synced_at" →
         spread r (synced_patch t) !! f = r !! f.
Proof.
  unfold prop. rewrite !spread_lookup, !synced_patch_lookup. cbn.
  split_and!; try done.
  intros f H1 H2. rewrite spread_lookup, synced_patch_lookup.
  by rewrite !decide_False.
Qed.

(** C4. In a cycle that the transport answers with a subset of the ids it
    was handed, every acknowledged id's record is patched in the store,
    [status] to [synced] and [synced_at] to the time of the answer, its
    other fields as before; every other entry of the store, the submitted
    records that were not acknowledged among them, is what it was (so a
    record that was pending stays pending).  [snap] is the mirror the call
    works on; its records are records of the store. *)
Theorem trySync_partial_acceptance (send : list record → reply) (v : variant)
    (c : caller) (snap : list record) (w : world) (accepted : list value) :
  wf_store (db w) →
  Forall (λ t, is_Some (db w !! prop t "id")) snap →
  filter is_pending snap ≠ [] →
  send (filter is_pending snap)
  = Answer (Some {| ok := true; syncedIds := accepted |}) →
  accepted ⊆ map (λ t, prop t "id") (filter is_pending snap) →
  (trySync send v c snap w).2 = None
  ∧ sent (trySync send v c snap w).1 = (sent w ++ [filter is_pending snap])%list
  ∧ (∀ id, id ∈ accepted →
       ∃ r r', db w !! id = Some r
         ∧ db (trySync send v c snap w).1 !! id = Some r'
         ∧ prop r' "status" = VStr "synced"
         ∧ prop r' "synced_at" = VTime (now w)
         ∧ ∀ f, f ≠ "status" → f ≠ "synced_at" → r' !! f = r !! f)
  ∧ (∀ k, k ∉ accepted →
       db (trySync send v c snap w).1 !! k = db w !! k)
  ∧ (∀ t, t ∈ filter is_pending snap → prop t "id" ∉ accepted →
       db w !! prop t "id" = Some t →
       db (trySync send v c snap w).1 !! prop t "id" = Some t
       ∧ is_pending t).
Proof.
  intros Hwf Hsnap Hne Hsend Hsub.
  assert (∀ id, id ∈ accepted → is_Some (db w !! id)) as Hin.
  { intros id Hid. apply Hsub in Hid.
    apply list_elem_of_fmap in Hid as (t & -> & Ht).
    apply list_elem_of_filter in Ht as [_ Ht].
    rewrite list.Forall_forall in Hsnap. by apply Hsnap. }
  destruct (trySync_answered send v c snap w accepted Hwf Hne Hsend Hin)
    as (Hdone & Hsent & Hdb).
  split_and!; try done.
  - intros id Hid. destruct (Hin id Hid) as [r Hr].
    exists r, (spread r (synced_patch (now w))).
    split; [done|]. split.
    + by rewrite Hdb, decide_True, Hr.
    + apply spread_synced_fields.
  - intros k Hk. by rewrite Hdb, decide_False.
  - intros t Ht Hid Ht'. split.
    + by rewrite Hdb, decide_False.
    + by apply list_elem_of_filter in Ht as [Ht _].
Qed.

Lemma trySync_partial_acceptance_witness :
  (trySync Sample.accept_A Prototype FromForce [Sample.B; Sample.A]
     Sample.pageAB).2 = None
  ∧ (∃ r r', db Sample.pageAB !! VStr "A" = Some r
       ∧ db (trySync Sample.accept_A Prototype FromForce [Sample.B; Sample.A]
               Sample.pageAB).1 !! VStr "A" = Some r'
       ∧ prop r' "status" = VStr "synced"
       ∧ prop r' "synced_at" = VTime 3000
       ∧ ∀ f, f ≠ "status" → f ≠ "synced_at" → r' !! f = r !! f)
  ∧ db (trySync Sample.accept_A Prototype FromForce [Sample.B; Sample.A]
          Sample.pageAB).1 !! VStr "B" = Some Sample.B
  ∧ is_pending Sample.B.
Proof.
  assert (wf_store (db Sample.pageAB)) as Hwf by compute_done.
  assert (Forall (λ t, is_Some (db Sample.pageAB !! prop t "id"))
            [Sample.B; Sample.A]) as Hsnap by compute_done.
  assert (filter is_pending [Sample.B; Sample.A] ≠ []) as Hne by compute_done.
  assert ([VStr "A"] ⊆ map (λ t, prop t "id")
                         (filter is_pending [Sample.B; Sample.A])) as Hsub
    by compute_done.
  destruct (trySync_partial_acceptance Sample.accept_A Prototype FromForce
              [Sample.B; Sample.A] Sample.pageAB [VStr "A"]
              Hwf Hsnap Hne eq_refl Hsub)
    as (Hdone & _ & Hacc & _ & Hrest).
  split; [exact Hdone|]. split; [apply Hacc; left|].
  apply (Hrest Sample.B); compute_done.
Defined.

(** C10. [fakeSendToServer] answers every batch with [ok] and the id of
    every record of the batch, in order: it never fails and never leaves an
    id out.  So a cycle against it runs to its end and every pending record
    it submitted is [synced] in the store afterwards. *)
Theorem fakeSendToServer_acknowledges_all (v : variant) (c : caller)
    (snap : list record) (w : world) :
  (∀ batch, fakeSendToServer batch
            = Answer (Some {| ok := true;
                              syncedIds := map (λ b, prop b "id") batch |}))
  ∧ (wf_store (db w) →
     Forall (λ t, is_Some (db w !! prop t "id")) snap →
     filter is_pending snap ≠ [] →
     (trySync fakeSendToServer v c snap w).2 = None
     ∧ sent (trySync fakeSendToServer v c snap w).1
       = (sent w ++ [filter is_pending snap])%list
     ∧ ∀ t, t ∈ snap → is_pending t →
         ∃ r, db (trySync fakeSendToServer v c snap w).1 !! prop t "id" = Some r
              ∧ prop r "status" = VStr "synced"
              ∧ prop r "synced_at" = VTime (now w)).
Proof.
  split; [done|]. intros Hwf Hsnap Hne.
  set (ids := map (λ t, prop t "id") (filter is_pending snap)).
  assert (∀ id, id ∈ ids → is_Some (db w !! id)) as Hin.
  { intros id (t & -> & Ht)%list_elem_of_fmap.
    apply list_elem_of_filter in Ht as [_ Ht].
    rewrite list.Forall_forall in Hsnap. by apply Hsnap. }
  destruct (trySync_answered fakeSendToServer v c snap w ids Hwf Hne eq_refl Hin)
    as (Hdone & Hsent & Hdb).
  split_and!; try done.
  intros t Ht Hp.
  assert (prop t "id" ∈ ids) as Hid.
  { apply list_elem_of_fmap. exists t. split; [done|].
    by apply list_elem_of_filter. }
  destruct (Hin _ Hid) as [r Hr].
  exists (spread r (synced_patch (now w))).
  rewrite Hdb, decide_True, Hr by done.
  split; [done|]. split; apply spread_synced_fields.
Qed.

Lemma fakeSendToServer_acknowledges_all_witness :
  (trySync fakeSendToServer Prototype FromForce [Sample.B; Sample.A]
     Sample.pageAB).2 = None
  ∧ ∃ r, db (trySync fakeSendToServer Prototype FromForce [Sample.B; Sample.A]
               Sample.pageAB).1 !! prop Sample.B "id" = Some r
         ∧ prop r "status" = VStr "synced"
         ∧ prop r "synced_at" = VTime 3000.
Proof.
  assert (wf_store (db Sample.pageAB)) as Hwf by compute_done.
  assert (Forall (λ t, is_Some (db Sample.pageAB !! prop t "id"))
            [Sample.B; Sample.A]) as Hsnap by compute_done.
  assert (filter is_pending [Sample.B; Sample.A] ≠ []) as Hne by compute_done.
  destruct (fakeSendToServer_acknowledges_all Prototype FromForce
              [Sample.B; Sample.A] Sample.pageAB) as [_ H].
  destruct (H Hwf Hsnap Hne) as (Hdone & _ & Hall).
  split; [exact Hdone|]. apply Hall; compute_done.
Defined.

(** *** The mirror and the snapshots are of records of the store *)

Lemma addTransaction_grows (tx : record) (d : store) :
  grows d (addTransaction tx d).2.
Proof.
  intros k Hk. unfold addTransaction.
  destruct (valid_key (prop tx keyPath)); [|done].
  destruct (d !! prop tx keyPath) eqn:Hd; [done|]. cbn.
  rewrite lookup_insert. by case_decide.
Qed.

Lemma updateTransaction_grows (id : value) (patch : record) (d : store) :
  grows d (updateTransaction id patch d).2.
Proof.
  intros k Hk. unfold updateTransaction.
  destruct (valid_key id); [|done].
  destruct (d !! id) as [r|]; [|done].
  destruct (valid_key (prop (spread r patch) keyPath)); [|done]. cbn.
  rewrite lookup_insert. by case_decide.
Qed.

Lemma apply_updates_grows_wf (ups : list (value * record)) (d : store) :
  wf_store d →
  grows d (apply_updates ups d).2 ∧ wf_store (apply_updates ups d).2.
Proof.
  revert d. induction ups as [|[id patch] ups IH]; intros d Hwf.
  { split; [by intros k Hk|done]. }
  cbn [apply_updates].
  pose proof (updateTransaction_grows id patch d) as Hg.
  pose proof (updateTransaction_wf id patch d Hwf) as Hw.
  destruct (updateTransaction id patch d) as [o d1]. cbn [snd] in Hg, Hw.
  destruct (IH d1 Hw) as [Hg1 Hw1].
  destruct (apply_updates ups d1) as [os d2]. cbn [snd] in *.
  split; [|done]. intros k Hk. by apply Hg1, Hg.
Qed.

Lemma Forall_in_store_grows (d d' : store) (l : list record) :
  grows d d' → Forall (in_store d) l → Forall (in_store d') l.
Proof. intros Hg. apply Forall_impl. intros t. apply Hg. Qed.

Lemma Forall_task_ok_grows (d d' : store) (l : list task) :
  grows d d' → Forall (task_ok d) l → Forall (task_ok d') l.
Proof.
  intros Hg. apply Forall_impl. intros [] H; cbn in *;
    try done; by eapply Forall_in_store_grows.
Qed.

Lemma Forall_insert_sorted {P : record → Prop} cmp (x : record)
    (l : list record) :
  P x → Forall P l → Forall P (insert_sorted cmp x l).
Proof.
  intros Hx. induction 1 as [|y l Hy Hl IH]; cbn.
  - by constructor.
  - destruct (cmp x y <=? 0)%Z; repeat constructor; done.
Qed.

Lemma Forall_sort {P : record → Prop} cmp (l : list record) :
  Forall P l → Forall P (sort cmp l).
Proof.
  induction 1 as [|x l Hx Hl IH]; cbn; [constructor|].
  by apply Forall_insert_sorted.
Qed.

(** What [getAllTransactions] returns are records of the store. *)
Lemma getAllTransactions_in_store (d : store) :
  wf_store d → Forall (in_store d) (getAllTransactions d).
Proof.
  intros Hwf. apply list.Forall_forall. intros t Ht.
  unfold getAllTransactions in Ht.
  apply list_elem_of_fmap in Ht as ([k r] & -> & Hkr).
  apply elem_of_map_to_list in Hkr. destruct (Hwf _ _ Hkr) as [Hid _].
  unfold in_store. cbn. unfold keyPath in Hid. by rewrite Hid, Hkr.
Qed.

Lemma consistent_same (w w' : world) :
  db w' = db w → transactions w' = transactions w → tasks w' = tasks w →
  consistent w → consistent w'.
Proof. unfold consistent. by intros -> -> ->. Qed.

Lemma consistent_loadTransactions (w : world) :
  consistent w → consistent (loadTransactions w).
Proof.
  intros (Hwf & _ & Ht). split_and!; try done. cbn.
  by apply Forall_sort, getAllTransactions_in_store.
Qed.

Lemma consistent_set_db (d : store) (w : world) :
  wf_store d → grows (db w) d → consistent w → consistent (set_db d w).
Proof.
  intros Hwf Hg (_ & Hm & Ht). split_and!; cbn; [done| |].
  - by eapply Forall_in_store_grows.
  - by eapply Forall_task_ok_grows.
Qed.

Lemma consistent_sync_end (v : variant) (c : caller) (w : world) :
  consistent w → consistent (sync_end v c w).
Proof. apply consistent_same; by destruct c, v. Qed.

Lemma consistent_submit_end (v : variant) (w : world) :
  consistent w → consistent (submit_end v w).
Proof. apply consistent_same; by destruct v. Qed.

Lemma trySync_call_consistent (v : variant) (c : caller) (snap : list record)
    (w : world) :
  consistent w → Forall (in_store (db w)) snap →
  consistent_out (trySync_call v c snap w).
Proof.
  intros Hw Hsnap. unfold trySync_call.
  assert (Forall (in_store (db w)) (filter is_pending snap)) as Hf.
  { rewrite list.Forall_forall in Hsnap |- *.
    intros x [_ Hx]%list_elem_of_filter. by apply Hsnap. }
  destruct (filter is_pending snap) as [|t p].
  - split; [|done]. cbn [fst]. by apply consistent_sync_end.
  - split; cbn [fst snd from_option]; [|done].
    revert Hw. by apply consistent_same.
Qed.

Lemma resume_consistent (send : list record → reply) (v : variant) (t : task)
    (w : world) :
  consistent w → task_ok (db w) t → consistent_out (resume send v t w).
Proof.
  intros Hw Ht. destruct t as [|snap tx|snap|c batch|c ups|c|]; cbn [resume].
  - split; [|done]. by apply consistent_loadTransactions.
  - unfold submit_added.
    pose proof (addTransaction_grows tx (db w)) as Hg.
    pose proof (addTransaction_wf tx (db w) (proj1 Hw)) as Hwf.
    destruct (addTransaction tx (db w)) as [[k|e|] d]; cbn [snd] in Hg, Hwf.
    + split; cbn [fst snd from_option].
      * by apply consistent_set_db.
      * cbn. by eapply Forall_in_store_grows.
    + split; [|done]. by apply consistent_submit_end, consistent_set_db.
    + split; [|done]. by apply consistent_submit_end, consistent_set_db.
  - unfold submit_loaded.
    pose proof (consistent_loadTransactions w Hw) as Hl.
    destruct (onLine (loadTransactions w)).
    + by apply trySync_call_consistent.
    + split; [|done]. by apply consistent_submit_end.
  - unfold sync_reply. destruct (send batch) as [[res|]|];
      [destruct (ok res)|..]; split; try done;
      by apply consistent_sync_end.
  - unfold sync_updates.
    destruct (apply_updates_grows_wf ups (db w) (proj1 Hw)) as [Hg Hwf].
    destruct (apply_updates ups (db w)) as [outs d]. cbn [snd] in Hg, Hwf.
    destruct (existsb is_rejected outs); [|destruct (existsb is_unsettled outs)];
      split; try done.
    + by apply consistent_sync_end, consistent_set_db.
    + by apply consistent_set_db.
    + by apply consistent_set_db.
  - split; [|done]. by apply consistent_sync_end, consistent_loadTransactions.
  - by split.
Qed.

Lemma push_task_consistent (w : world) (ot : option task) :
  consistent_out (w, ot) → consistent (push_task ot w).
Proof.
  intros [(Hwf & Hm & Ht) Ho]. destruct ot as [t|]; [|done].
  split_and!; try done. cbn. apply Forall_app. split; [done|].
  by constructor.
Qed.

(** Every event keeps the page consistent. *)
Lemma step_consistent (send : list record → reply) (v : variant) (e : event)
    (w : world) :
  consistent w → consistent (step send v e w).
Proof.
  intros Hw. destruct e as [| | |f id| |i|dt]; cbn [step]; try done.
  - by apply (push_task_consistent w (Some MountAwaitLoad)).
  - destruct (match v with Prototype => isSubmitting w | MobiLedger => false end);
      [done|].
    unfold handleSubmit_call.
    destruct (handleSubmit_tx v f id (now w)) as [tx|]; [|done].
    apply push_task_consistent. split.
    + cbn [fst]. revert Hw. apply consistent_same; by destruct v.
    + cbn. destruct v; apply Hw.
  - destruct (online w && negb (syncing w)); [|done].
    unfold forceSync. destruct (negb (onLine w)); [done|].
    pose proof (trySync_call_consistent v FromForce (transactions w) w Hw
                  (proj1 (proj2 Hw))) as H.
    destruct (trySync_call v FromForce (transactions w) w) as [w' ot].
    by apply push_task_consistent.
  - destruct (tasks w !! i) as [t|] eqn:Hi; [|done].
    assert (consistent (set_tasks (delete i (tasks w)) w)) as Hw'.
    { destruct Hw as (Hwf & Hm & Ht). split_and!; try done. cbn.
      by apply Forall_delete. }
    assert (task_ok (db w) t) as Hok.
    { destruct Hw as (_ & _ & Ht). rewrite list.Forall_forall in Ht.
      apply Ht. by eapply list_elem_of_lookup_2. }
    pose proof (resume_consistent send v t _ Hw' Hok) as H.
    destruct (resume send v t (set_tasks (delete i (tasks w)) w)) as [w' ot].
    by apply push_task_consistent.
Qed.

(** A page opened on a well-formed store stays consistent whatever
    happens: at every call of [trySync] the snapshot it works on is of
    records of the store. *)
Lemma run_consistent (send : list record → reply) (v : variant)
    (es : list event) (d : store) (net : bool) (t : Z) :
  wf_store d → consistent (run send v es (initial d net t)).
Proof.
  intros Hwf. unfold run.
  assert (consistent (initial d net t)) as Hw by (by split_and!).
  revert Hw. generalize (initial d net t).
  induction es as [|e es IH]; intros w Hw; [done|].
  cbn [foldl]. by apply IH, step_consistent.
Qed.

(** ** The Offline Cache Worker *)

Section Cache.

Import Worker.

Lemma foldl_caches_delete (ks : list string) (st : storage) :
  foldl (λ s k, caches_delete k s) st ks = filter (λ e, e.1 ∉ ks) st.
Proof.
  revert st. induction ks as [|k ks IH]; intros st; cbn [foldl].
  - induction st as [|e st IHst]; [done|].
    rewrite filter_cons_True by apply not_elem_of_nil. by f_equal.
  - rewrite IH. unfold caches_delete. clear IH.
    induction st as [|e st IHst]; [done|].
    destruct (decide (e.1 = k)) as [He|He].
    + rewrite (filter_cons_False (λ e0, e0.1 ≠ k)) by (intros ?; done).
      rewrite (filter_cons_False (λ e0, e0.1 ∉ k :: ks)); [done|].
      intros Hn. apply Hn. rewrite He. left.
    + rewrite (filter_cons_True (λ e0, e0.1 ≠ k)) by done.
      destruct (decide (e.1 ∈ ks)) as [Hin|Hin].
      * rewrite !filter_cons_False; [done| |].
        -- intros Hn. apply Hn. by right.
        -- intros Hn. by apply Hn.
      * rewrite !filter_cons_True; [by f_equal| |done].
        intros [?|?]%elem_of_cons; done.
Qed.

(** Activation of version 2 keeps the caches named [CACHE_NAME] and no
    other. *)
Lemma W2_activate_filter (st : storage) :
  W2.activate st = filter (λ e, e.1 = CACHE_NAME v2) st.
Proof.
  unfold W2.activate. rewrite foldl_caches_delete. unfold caches_keys.
  assert (∀ l : storage, (∀ e, e ∈ l → e ∈ st) →
            filter (λ e, e.1 ∉ filter (λ k, k ≠ CACHE_NAME v2) st.*1) l
            = filter (λ e, e.1 = CACHE_NAME v2) l) as H.
  { induction l as [|e l IHl]; intros Hl; [done|].
    assert (e ∈ st) as He by (apply Hl; left).
    assert (∀ e', e' ∈ l → e' ∈ st) as Hl' by (intros e' ?; apply Hl; by right).
    destruct (decide (e.1 = CACHE_NAME v2)) as [Hn|Hn].
    - rewrite !filter_cons_True; [by rewrite IHl|done|].
      intros [Hne _]%list_elem_of_filter. done.
    - rewrite !filter_cons_False; [by rewrite IHl|done|].
      intros Hnot. apply Hnot. apply list_elem_of_filter. split; [done|].
      apply list_elem_of_fmap. by exists e. }
  by apply H.
Qed.

Lemma map_rename_absent (name u : string) (resp : response) (st : storage) :
  name ∉ caches_keys st →
  map (λ e : string * cache,
         if decide (e.1 = name) then (e.1, <[u := resp]> e.2) else e) st = st.
Proof.
  unfold caches_keys. induction st as [|e st IH]; intros Hn; [done|].
  cbn [map]. rewrite fmap_cons in Hn. apply not_elem_of_cons in Hn as [Hne Hn].
  rewrite decide_False by done. by rewrite IH.
Qed.

(** Writing into the cache that was created last. *)
Lemma cache_put_last (name : string) (req : request) (resp : response)
    (st : storage) (c : cache) :
  name ∉ caches_keys st →
  ∃ c', cache_put name req resp (st ++ [(name, c)])%list
        = (st ++ [(name, c')])%list
        ∧ ∀ u, u ≠ url req → c' !! u = c !! u.
Proof.
  intros Hn.
  assert (caches_open name (st ++ [(name, c)])%list = (st ++ [(name, c)])%list)
    as Hopen.
  { unfold caches_open. rewrite decide_True; [done|].
    unfold caches_keys. rewrite fmap_app. apply elem_of_app. right. left. }
  unfold cache_put. rewrite Hopen.
  case_decide.
  - exists (<[url req := resp]> c). split.
    + rewrite map_app, map_rename_absent by done. cbn.
      by rewrite decide_True.
    + intros u Hu. by rewrite lookup_insert_ne.
  - by exists c.
Qed.

Lemma foldl_cache_put_last (name : string) (entries : list (request * response))
    (st : storage) (c : cache) :
  name ∉ caches_keys st →
  ∃ c', foldl (λ s e, cache_put name e.1 e.2 s) (st ++ [(name, c)])%list entries
        = (st ++ [(name, c')])%list
        ∧ ∀ u, u ∉ map (λ e, url e.1) entries → c' !! u = c !! u.
Proof.
  intros Hn. revert c. induction entries as [|[q r] entries IH]; intros c.
  - by exists c.
  - cbn [foldl fst snd].
    destruct (cache_put_last name q r st c Hn) as (c1 & -> & Hc1).
    destruct (IH c1) as (c' & -> & Hc'). exists c'. split; [done|].
    intros u Hu. cbn [map fst] in Hu. apply not_elem_of_cons in Hu as [Hu1 Hu2].
    rewrite Hc' by done. by apply Hc1.
Qed.

Lemma fetch_all_requests (net : network) (reqs : list request)
    (entries : list (request * response)) :
  fetch_all net reqs = Some entries → map fst entries = reqs.
Proof.
  revert entries. induction reqs as [|q reqs IH]; intros entries; cbn.
  - by intros [= <-].
  - destruct (net q) as [resp|]; [|done].
    destruct (addAll_accepts resp); [|done].
    destruct (fetch_all net reqs) as [l|]; [|done].
    intros [= <-]. cbn. by rewrite (IH l).
Qed.

(** A first installation of a version appends its cache, which holds no
    URL outside the precache list. *)
Lemma install_fresh (cfg : config) (origin : string) (net : network)
    (st st' : storage) :
  CACHE_NAME cfg ∉ caches_keys st →
  install cfg origin net st = (true, st') →
  ∃ c, st' = (st ++ [(CACHE_NAME cfg, c)])%list
       ∧ ∀ u, u ∉ map (λ p, origin ++ p) (PRECACHE_URLS cfg) → c !! u = None.
Proof.
  intros Hn. unfold install, caches_open. rewrite decide_False by done.
  destruct (fetch_all net (map (GET origin) (PRECACHE_URLS cfg)))
    as [entries|] eqn:Hf; [|done].
  intros [= <-].
  destruct (foldl_cache_put_last (CACHE_NAME cfg) entries st ∅ Hn)
    as (c & -> & Hc).
  exists c. split; [done|]. intros u Hu. rewrite Hc; [done|].
  apply fetch_all_requests in Hf.
  replace (map (λ e : request * response, url e.1) entries)
    with (map url (map fst entries)) by (by rewrite map_map).
  by rewrite Hf, map_map.
Qed.

Lemma filter_name_absent (name : string) (st : storage) :
  name ∉ caches_keys st → filter (λ e : string * cache, e.1 = name) st = [].
Proof.
  unfold caches_keys. induction st as [|e st IH]; intros Hn; [done|].
  rewrite fmap_cons in Hn. apply not_elem_of_cons in Hn as [Hne Hn].
  rewrite filter_cons_False by done. by apply IH.
Qed.

Lemma caches_open_has (name : string) (st : storage) :
  ∃ c, (name, c) ∈ caches_open name st.
Proof.
  unfold caches_open. case_decide as Hin.
  - unfold caches_keys in Hin.
    apply list_elem_of_fmap in Hin as ([n c] & -> & He). by exists c.
  - exists ∅. apply elem_of_app. right. left.
Qed.

(** After a [put] of a [GET] request the named cache has the response
    under the request's URL. *)
Lemma cache_put_present (name : string) (req : request) (resp : response)
    (st : storage) :
  method req = "GET" →
  ∃ c, (name, c) ∈ cache_put name req resp st ∧ c !! url req = Some resp.
Proof.
  intros Hget. unfold cache_put. rewrite decide_True by done.
  destruct (caches_open_has name st) as [c0 Hc0].
  exists (<[url req := resp]> c0). split; [|by rewrite lookup_insert_eq].
  apply list_elem_of_fmap. exists (name, c0). split; [|done].
  cbn. by rewrite decide_True.
Qed.

(** C7, as stated, fails on [public/service-worker.js]: its [activate]
    listener deletes nothing.  Activated over the caches version 2 left, it
    keeps the namespace [om-cache-v2] next to its own, and a request for an
    asset only version 2 precached is still answered from it. *)
Lemma W1_activate_keeps_other_namespaces :
  CACHE_NAME v1 = "om-cache-v1"
  ∧ caches_keys Sample.caches_v2_then_v1 = ["om-cache-v2"; "om-cache-v1"]
  ∧ ("/manifest.json" ∉ PRECACHE_URLS v1)
  ∧ caches_match (GET Sample.origin "/manifest.json") Sample.caches_v2_then_v1
    = Some {| status := 200;
              body := "second:https://mm.example/manifest.json" |}.
Proof. compute_done. Qed.

(** C7, amended: the [om-cache-v2] worker (version 2).  Its
    activation keeps the caches named [CACHE_NAME] and deletes every other
    one.  So once it has been installed over caches that have no version 2
    namespace yet (those version 1 left, say) and activated, exactly one
    namespace remains, version 2's, and a request for a URL that is not in
    version 2's precache list misses.  The [activate] listeners of version 1
    and of the draft leave the caches as they are. *)
Theorem W2_activate_cutover (origin : string) (net : network) (st : storage) :
  CACHE_NAME v2 ∉ caches_keys st →
  (install v2 origin net st).1 = true →
  caches_keys (W2.activate (install v2 origin net st).2) = [CACHE_NAME v2]
  ∧ (∀ req, url req ∉ map (λ p, origin ++ p) (PRECACHE_URLS v2) →
       caches_match req (W2.activate (install v2 origin net st).2) = None)
  ∧ (∀ st0, W2.activate st0 = filter (λ e, e.1 = CACHE_NAME v2) st0)
  ∧ (∀ st0, W1.activate st0 = st0 ∧ W0.activate st0 = st0).
Proof.
  intros Hn Hok.
  destruct (install v2 origin net st) as [b st'] eqn:Hi. cbn in Hok. subst b.
  destruct (install_fresh v2 origin net st st' Hn Hi) as (c & -> & Hc).
  cbn [snd]. rewrite W2_activate_filter, list.filter_app, filter_name_absent by done.
  rewrite filter_cons_True by done. rewrite filter_nil. cbn [app].
  split; [done|]. split; [|split; [apply W2_activate_filter|done]].
  intros req Hreq. unfold caches_match. case_decide; [|done].
  cbn [match_in]. by rewrite (Hc _ Hreq).
Qed.

Lemma W2_activate_cutover_witness :
  caches_keys Sample.caches_v1 = ["om-cache-v1"]
  ∧ caches_keys Sample.caches_v1_then_v2 = ["om-cache-v2"]
  ∧ caches_match (GET Sample.origin "/App.jsx") Sample.caches_v1_then_v2 = None.
Proof.
  split; [compute_done|].
  assert (CACHE_NAME v2 ∉ caches_keys Sample.caches_v1) as Hfresh
    by compute_done.
  assert ((install v2 Sample.origin (Sample.net "second") Sample.caches_v1).1
          = true) as Hok by compute_done.
  destruct (W2_activate_cutover Sample.origin (Sample.net "second")
              Sample.caches_v1 Hfresh Hok) as (Hkeys & Hmiss & _).
  split; [exact Hkeys|]. apply Hmiss. compute_done.
Defined.

(** C8, as stated, fails on [public/service-worker.js]: it answers a
    navigation from the cache when the cache has the URL, and the network
    is not asked.  Here the network would answer with the second
    deployment's page; the worker gives the first one's, precached at
    install. *)
Lemma W1_navigation_served_from_cache :
  Sample.net "second" Sample.navigate_root
  = Some {| status := 200; body := "second:https://mm.example/" |}
  ∧ answer (W1.fetch Sample.origin (Sample.net "second") Sample.navigate_root
              Sample.caches_v1)
    = Some {| status := 200; body := "first:https://mm.example/" |}
  ∧ fetched (W1.fetch Sample.origin (Sample.net "second") Sample.navigate_root
               Sample.caches_v1) = []
  ∧ caches (W1.fetch Sample.origin (Sample.net "second") Sample.navigate_root
              Sample.caches_v1) = Sample.caches_v1.
Proof. compute_done. Qed.

(** C8, amended: the [om-cache-v2] worker (version 2).  A
    navigation always goes to the network first.  When the network answers,
    the answer is what the page gets; an answer with status 200 to a [GET]
    is stored in the version's cache under the request's URL (and is what
    [caches.match] then finds, once version 2's is the only cache); an
    answer with another status is not stored.  When the network fails the
    page gets [caches.match('/index.html')] and the caches are untouched.
    Version 1 serves every request, navigations included, cache first: a
    request the caches match is answered with the match, the network is
    not asked and the caches are untouched; on a miss the request goes to
    the network, whose answer is what the page gets (and is stored when it
    is a 200 to a same-origin [GET]); only on a miss with the network down
    does a navigation get [caches.match('/')], and any other request
    nothing. *)
Theorem W2_navigation_network_first (origin : string) (net : network)
    (req : request) (st : storage) :
  mode req = "navigate" →
  fetched (W2.fetch origin net req st) = [req]
  ∧ (∀ resp, net req = Some resp →
       answer (W2.fetch origin net req st) = Some resp
       ∧ (status resp = 200%nat → method req = "GET" →
          (∃ c, (CACHE_NAME v2, c) ∈ caches (W2.fetch origin net req st)
                ∧ c !! url req = Some resp)
          ∧ (caches_keys st = [CACHE_NAME v2] →
             caches_match req (caches (W2.fetch origin net req st))
             = Some resp))
       ∧ (status resp ≠ 200%nat → caches (W2.fetch origin net req st) = st))
  ∧ (net req = None →
     answer (W2.fetch origin net req st)
     = caches_match (GET origin "/index.html") st
     ∧ caches (W2.fetch origin net req st) = st)
  ∧ (∀ q : request,
       (∀ cached, caches_match q st = Some cached →
          W1.fetch origin net q st
          = {| answer := Some cached; caches := st; fetched := [] |})
       ∧ (caches_match q st = None →
          fetched (W1.fetch origin net q st) = [q]
          ∧ (∀ resp, net q = Some resp →
               answer (W1.fetch origin net q st) = Some resp
               ∧ caches (W1.fetch origin net q st)
                 = if bool_decide (method q = "GET")
                      && (status resp =? 200)%nat
                      && String.prefix origin (url q)
                   then cache_put (CACHE_NAME v1) q resp st else st)
          ∧ (net q = None →
               answer (W1.fetch origin net q st)
               = (if decide (mode q = "navigate")
                  then caches_match (GET origin "/") st else None)
               ∧ caches (W1.fetch origin net q st) = st))).
Proof.
  intros Hnav. split_and!.
  - unfold W2.fetch. rewrite decide_True by done. by destruct (net req).
  - unfold W2.fetch. rewrite decide_True by done.
    intros resp ->. cbn. split; [done|]. split.
    + intros H200 Hget. rewrite H200. cbn.
      split; [by apply cache_put_present|].
      intros Hkeys. destruct st as [|[n c] [|? ?]]; try done.
      cbn in Hkeys. injection Hkeys as ->.
      unfold caches_match, cache_put, caches_open. rewrite !decide_True; try done.
      * cbn. rewrite decide_True by done. cbn. by rewrite lookup_insert_eq.
      * cbn. left.
    + intros Hne. apply Nat.eqb_neq in Hne. by rewrite Hne.
  - unfold W2.fetch. rewrite decide_True by done. by intros ->.
  - intros q. unfold W1.fetch, cache_first. split.
    + by intros cached ->.
    + intros ->. split_and!.
      * by destruct (net q).
      * by intros resp ->.
      * by intros ->.
Qed.

Lemma W2_navigation_network_first_witness :
  answer (W2.fetch Sample.origin (Sample.net "third") Sample.navigate_root
            Sample.caches_v1_then_v2)
  = Some {| status := 200; body := "third:https://mm.example/" |}
  ∧ caches_match Sample.navigate_root
      (caches (W2.fetch Sample.origin (Sample.net "third")
                 Sample.navigate_root Sample.caches_v1_then_v2))
    = Some {| status := 200; body := "third:https://mm.example/" |}
  ∧ answer (W2.fetch Sample.origin Sample.offline_net Sample.navigate_root
              Sample.caches_v1_then_v2)
    = Some {| status := 200; body := "second:https://mm.example/index.html" |}
  ∧ W1.fetch Sample.origin (Sample.net "third") Sample.navigate_root
      Sample.caches_v1_then_v2
    = {| answer := Some {| status := 200;
                           body := "second:https://mm.example/" |};
         caches := Sample.caches_v1_then_v2; fetched := [] |}.
Proof.
  destruct (W2_navigation_network_first Sample.origin (Sample.net "third")
              Sample.navigate_root Sample.caches_v1_then_v2 eq_refl)
    as (_ & Hnet & _ & Hv1).
  destruct (Hnet _ eq_refl) as (Hans & Hput & _).
  destruct (Hput eq_refl eq_refl) as [_ Hmatch].
  split; [exact Hans|]. split; [apply Hmatch; compute_done|].
  destruct (W2_navigation_network_first Sample.origin Sample.offline_net
              Sample.navigate_root Sample.caches_v1_then_v2 eq_refl)
    as (_ & _ & Hoff & _).
  destruct (Hoff eq_refl) as [-> _]. split; [compute_done|].
  apply (Hv1 Sample.navigate_root). compute_done.
Defined.

End Cache.

(** * Further properties of the code *)

(** ** The store *)

Lemma elem_of_getAllTransactions (d : store) (r : record) :
  r ∈ getAllTransactions d ↔ ∃ k, d !! k = Some r.
Proof.
  unfold getAllTransactions. rewrite list_elem_of_fmap. split.
  - intros ([k r'] & -> & H). exists k. by apply elem_of_map_to_list.
  - intros [k H]. exists (k, r). split; [done|]. by apply elem_of_map_to_list.
Qed.

Lemma length_getAllTransactions (d : store) :
  length (getAllTransactions d) = size d.
Proof. unfold getAllTransactions. by rewrite length_fmap, length_map_to_list. Qed.

(** X1. After an [addTransaction] that resolved, [getAllTransactions] lists
    the record, lists no other record with its id, lists every record it
    listed before, and is one longer. *)
Theorem addTransaction_then_getAll (tx : record) (d d' : store) (k : value) :
  wf_store d →
  addTransaction tx d = (Resolved k, d') →
  tx ∈ getAllTransactions d'
  ∧ (∀ r, r ∈ getAllTransactions d' → prop r keyPath = prop tx keyPath → r = tx)
  ∧ (∀ r, r ∈ getAllTransactions d → r ∈ getAllTransactions d')
  ∧ length (getAllTransactions d') = S (length (getAllTransactions d)).
Proof.
  intros Hwf Hadd.
  pose proof (addTransaction_wf tx d Hwf) as Hwf'. rewrite Hadd in Hwf'.
  cbn [snd] in Hwf'. unfold addTransaction in Hadd.
  destruct (valid_key (prop tx keyPath)) eqn:Hk; [|done].
  destruct (d !! prop tx keyPath) eqn:Hd; [done|].
  injection Hadd as <- <-. split_and!.
  - apply elem_of_getAllTransactions. exists (prop tx keyPath).
    by rewrite lookup_insert_eq.
  - intros r [k' Hr]%elem_of_getAllTransactions Hid.
    destruct (Hwf' _ _ Hr) as [Hk' _]. rewrite Hid in Hk'. subst k'.
    rewrite lookup_insert_eq in Hr. by injection Hr.
  - intros r [k' Hr]%elem_of_getAllTransactions.
    apply elem_of_getAllTransactions. exists k'.
    rewrite lookup_insert_ne; [done|]. intros <-. by rewrite Hd in Hr.
  - rewrite !length_getAllTransactions. by apply map_size_insert_None.
Qed.

Lemma addTransaction_then_getAll_witness :
  Sample.B ∈ getAllTransactions Sample.dbAB
  ∧ length (getAllTransactions Sample.dbAB)
    = S (length (getAllTransactions Sample.dbA)).
Proof.
  assert (wf_store Sample.dbA) as Hwf by compute_done.
  assert (addTransaction Sample.B Sample.dbA
          = (Resolved (VStr "B"), Sample.dbAB)) as Hadd by compute_done.
  destruct (addTransaction_then_getAll Sample.B Sample.dbA Sample.dbAB
              (VStr "B") Hwf Hadd) as (Hin & _ & _ & Hlen).
  exact (conj Hin Hlen).
Defined.

Lemma updateTransaction_cases (id : value) (patch : record) (d : store) :
  wf_store d → patch !! keyPath = None →
  updateTransaction id patch d
  = match d !! id with
    | Some r => (Resolved (spread r patch), <[id := spread r patch]> d)
    | None => (Rejected (if valid_key id then NotFound else DataError), d)
    end.
Proof.
  intros Hwf Hp. unfold updateTransaction.
  destruct (d !! id) as [r|] eqn:Hr.
  - destruct (Hwf _ _ Hr) as [Hid Hk]. rewrite Hk.
    by rewrite (spread_prop_keep r patch keyPath Hp), Hid, Hk.
  - by destruct (valid_key id).
Qed.

(** X2. Two [updateTransaction] calls on different ids, with patches that
    do not name [id], give the same store and the same results in either
    order, whether or not the store holds the ids. *)
Theorem updateTransaction_commute (id1 id2 : value) (p1 p2 : record)
    (d : store) :
  wf_store d → id1 ≠ id2 → p1 !! keyPath = None → p2 !! keyPath = None →
  (updateTransaction id2 p2 (updateTransaction id1 p1 d).2).2
  = (updateTransaction id1 p1 (updateTransaction id2 p2 d).2).2
  ∧ (updateTransaction id2 p2 (updateTransaction id1 p1 d).2).1
    = (updateTransaction id2 p2 d).1
  ∧ (updateTransaction id1 p1 (updateTransaction id2 p2 d).2).1
    = (updateTransaction id1 p1 d).1.
Proof.
  intros Hwf Hne Hp1 Hp2.
  pose proof (updateTransaction_wf id1 p1 d Hwf) as Hwf1.
  pose proof (updateTransaction_wf id2 p2 d Hwf) as Hwf2.
  rewrite (updateTransaction_cases id2 p2 _ Hwf1 Hp2).
  rewrite (updateTransaction_cases id1 p1 _ Hwf2 Hp1).
  rewrite (updateTransaction_cases id1 p1 d Hwf Hp1).
  rewrite (updateTransaction_cases id2 p2 d Hwf Hp2).
  destruct (d !! id1) as [r1|] eqn:H1, (d !! id2) as [r2|] eqn:H2; cbn [fst snd];
    rewrite ?lookup_insert_ne, ?H1, ?H2 by done; cbn [fst snd];
    split_and!; try done.
  by apply insert_insert_ne.
Qed.

Lemma updateTransaction_commute_witness :
  (updateTransaction (VStr "B") (synced_patch 7)
     (updateTransaction (VStr "A") (synced_patch 5) Sample.dbAB).2).2
  = (updateTransaction (VStr "A") (synced_patch 5)
       (updateTransaction (VStr "B") (synced_patch 7) Sample.dbAB).2).2.
Proof.
  assert (wf_store Sample.dbAB) as Hwf by compute_done.
  assert (VStr "A" ≠ VStr "B") as Hne by compute_done.
  apply (updateTransaction_commute (VStr "A") (VStr "B") (synced_patch 5)
           (synced_patch 7) Sample.dbAB Hwf Hne); reflexivity.
Defined.

(** X3. Applying a patch a second time changes nothing: the store is the
    one the first call left and the record returned is the same. *)
Theorem updateTransaction_twice (id : value) (patch : record) (d : store) :
  wf_store d → patch !! keyPath = None →
  updateTransaction id patch (updateTransaction id patch d).2
  = updateTransaction id patch d.
Proof.
  intros Hwf Hp.
  pose proof (updateTransaction_wf id patch d Hwf) as Hwf1.
  rewrite (updateTransaction_cases id patch _ Hwf1 Hp).
  rewrite (updateTransaction_cases id patch d Hwf Hp).
  destruct (d !! id) as [r|] eqn:Hr; cbn [snd]; [|by rewrite Hr].
  by rewrite lookup_insert_eq, spread_idemp, insert_insert_eq.
Qed.

Lemma updateTransaction_twice_witness :
  updateTransaction (VStr "A") (synced_patch 5)
    (updateTransaction (VStr "A") (synced_patch 5) Sample.dbA).2
  = updateTransaction (VStr "A") (synced_patch 5) Sample.dbA.
Proof.
  assert (wf_store Sample.dbA) as Hwf by compute_done.
  apply (updateTransaction_twice (VStr "A") (synced_patch 5) Sample.dbA Hwf).
  reflexivity.
Defined.

(** ** The amount field *)

Lemma keep_digits_thousands_from (prev : bool) (ds : string) :
  all_chars is_digit ds = true →
  keep is_digit (thousands_from prev ds) = ds.
Proof.
  revert prev. induction ds as [|c r IH]; intros prev Hall; [done|].
  pose proof Hall as Hall'. cbn [all_chars] in Hall'.
  apply andb_prop in Hall' as [Hc Hr].
  cbn [thousands_from].
  assert (keep is_digit (String c (thousands_from (is_word c) r))
          = String c r) as Hrest.
  { cbn [keep]. by rewrite Hc, (IH _ Hr). }
  destruct (prev && groups_of_three_ahead (String c r)); [|done].
  cbn [keep]. exact Hrest.
Qed.

Lemma formatAmountInput_digits (value : string) :
  keep is_digit (formatAmountInput value) = keep is_digit value.
Proof.
  unfold formatAmountInput.
  destruct (decide (keep is_digit value = "")) as [->|_]; [done|].
  apply keep_digits_thousands_from, keep_all_chars.
Qed.

(** X4. Formatting what was already formatted changes nothing: the field
    can pass its own content through [formatAmountInput] at every
    keystroke. *)
Theorem formatAmountInput_idempotent (value : string) :
  formatAmountInput (formatAmountInput value) = formatAmountInput value.
Proof.
  unfold formatAmountInput at 1. rewrite formatAmountInput_digits.
  by unfold formatAmountInput.
Qed.

(** X5. [parseAmount] reads back from a formatted field the Number of the
    integer the digits typed denote, whatever else was typed between them:
    the double nearest to it, which is the integer itself up to [2^53],
    and 0 when no digit was typed.  It is never negative and never [NaN]. *)
Theorem parseAmount_formatAmountInput_roundtrip (raw : string) :
  parseAmount (formatAmountInput raw)
  = number (inject_Z (digits_val (keep is_digit raw)))
  ∧ (0 ≤ digits_val (keep is_digit raw))%Z
  ∧ amount_nonneg (parseAmount (formatAmountInput raw)) = true
  ∧ ((digits_val (keep is_digit raw) ≤ 2 ^ 53)%Z →
     parseAmount (formatAmountInput raw)
     = int (digits_val (keep is_digit raw))).
Proof.
  assert (parseAmount (formatAmountInput raw)
          = number (inject_Z (digits_val (keep is_digit raw)))
          ∧ (0 ≤ digits_val (keep is_digit raw))%Z) as [-> Hpos].
  { destruct (decide (formatAmountInput raw = "")) as [He|Hne].
    - assert (keep is_digit raw = "") as Hd.
      { rewrite <- formatAmountInput_digits, He. done. }
      rewrite He, Hd. done.
    - by apply parseAmount_formatAmountInput. }
  destruct (number_amount _ Hpos) as (Hnn & _ & Hint & _). by split_and!.
Qed.

Lemma parseAmount_formatAmountInput_roundtrip_witness :
  parseAmount (formatAmountInput "12a 345") = int 12345.
Proof.
  assert (digits_val (keep is_digit "12a 345") ≤ 2 ^ 53)%Z as Hle by done.
  exact (proj2 (proj2 (proj2
           (parseAmount_formatAmountInput_roundtrip "12a 345"))) Hle).
Defined.

Lemma div3_succ (m : nat) :
  (S m / 3 = m / 3 + (if (S m mod 3 =? 0) then 1 else 0))%nat.
Proof.
  pose proof (Nat.div_mod_eq m 3) as H1.
  pose proof (Nat.div_mod_eq (S m) 3) as H2.
  pose proof (Nat.mod_upper_bound m 3) as H3.
  pose proof (Nat.mod_upper_bound (S m) 3) as H4.
  destruct (Nat.eqb_spec (S m mod 3) 0); lia.
Qed.

Lemma length_thousands_from_true (s : string) :
  all_chars is_digit s = true →
  String.length (thousands_from true s)
  = (String.length s + String.length s / 3)%nat.
Proof.
  induction s as [|c r IH]; intros Hall; [done|].
  pose proof Hall as Hall'. cbn [all_chars] in Hall'.
  apply andb_prop in Hall' as [Hc Hr].
  cbn [thousands_from andb]. unfold groups_of_three_ahead.
  rewrite (span_all_chars _ _ Hall). cbn [fst].
  assert (is_word c = true) as -> by (unfold is_word; by rewrite Hc).
  change (String.length (String c r)) with (S (String.length r)).
  rewrite (div3_succ (String.length r)). cbn [Nat.ltb Nat.leb andb].
  destruct (S (String.length r) mod 3 =? 0)%nat; cbn [String.length];
    rewrite (IH Hr); lia.
Qed.

(** X6. A formatted amount of [n] digits has [(n - 1) / 3] separators: its
    length is [n + (n - 1) / 3], and it starts with a digit, not with a
    separator. *)
Theorem formatAmountInput_length (value : string) :
  String.length (formatAmountInput value)
  = (String.length (keep is_digit value)
     + (String.length (keep is_digit value) - 1) / 3)%nat
  ∧ match formatAmountInput value with
    | EmptyString => keep is_digit value = ""
    | String c _ => is_digit c = true
    end.
Proof.
  unfold formatAmountInput.
  pose proof (keep_all_chars is_digit value) as Hall.
  destruct (keep is_digit value) as [|c r] eqn:Hk; [done|].
  destruct (decide (String c r = "")) as [|_]; [done|].
  cbn [all_chars] in Hall. apply andb_prop in Hall as [Hc Hr].
  unfold thousands. cbn [thousands_from andb].
  assert (is_word c = true) as -> by (unfold is_word; by rewrite Hc).
  split; [|done]. cbn [String.length].
  rewrite (length_thousands_from_true r Hr).
  replace (S (String.length r) - 1)%nat with (String.length r) by lia. lia.
Qed.

(** ** Identifiers *)

Section UuidFacts.

Import Uuid.

Lemma toString16_nibble (v : nat) :
  (v < 16)%nat → ∃ c, toString16 v = String c "" ∧ is_hex c = true.
Proof.
  intros Hv.
  assert (match toString16 v with
          | String c EmptyString => is_hex c
          | _ => false
          end = true) as H.
  { do 16 (destruct v as [|v]; [vm_compute; reflexivity|]). lia. }
  destruct (toString16 v) as [|c [|]]; try done. by exists c.
Qed.

Lemma toString16_variant (r : nat) :
  (r < 16)%nat →
  ∃ c, toString16 (Nat.lor (Nat.land r 3) 8) = String c ""
       ∧ c ∈ ["8"; "9"; "a"; "b"]%char.
Proof.
  intros Hr.
  assert (match toString16 (Nat.lor (Nat.land r 3) 8) with
          | String c EmptyString => bool_decide (c ∈ ["8"; "9"; "a"; "b"]%char)
          | _ => false
          end = true) as H.
  { do 16 (destruct r as [|r]; [vm_compute; reflexivity|]). lia. }
  destruct (toString16 (Nat.lor (Nat.land r 3) 8)) as [|c [|]]; try done.
  exists c. split; [done|]. by apply bool_decide_eq_true in H.
Qed.

Lemma replace_xy_fits (rnd : nat → nat) (i : nat) (s : string) :
  (∀ j, rnd j < 16)%nat →
  Forall2 fits (list_ascii_of_string s)
    (list_ascii_of_string (replace_xy rnd i s)).
Proof.
  intros Hrnd. revert i. induction s as [|t r IH]; intros i; [constructor|].
  cbn [replace_xy list_ascii_of_string].
  destruct (decide (t = "x"%char ∨ t = "y"%char)) as [Hxy|Hn].
  - unfold nibble, fits.
    destruct (decide (t = "x"%char)) as [->|Hx].
    + destruct (toString16_nibble (rnd i) (Hrnd i)) as (c & -> & Hc).
      cbn. constructor; [|apply IH]. by rewrite decide_True.
    + destruct Hxy as [Hx' | ->]; [done|].
      destruct (toString16_variant (rnd i) (Hrnd i)) as (c & -> & Hc).
      cbn. constructor; [|apply IH].
      rewrite decide_False by done. by rewrite decide_True.
  - cbn [list_ascii_of_string]. constructor; [|apply IH].
    unfold fits. rewrite !decide_False; [done|tauto|tauto].
Qed.

(** X7. Whatever [Math.random] gives, [uuidv4()] is 36 characters long and
    follows its template place by place: a lower-case hexadecimal digit
    for each [x], one of [8 9 a b] for the [y], and the template's own
    character, the hyphens and the version digit [4], everywhere else. *)
Theorem uuidv4_format (rnd : nat → nat) :
  (∀ j, rnd j < 16)%nat →
  Forall2 fits (list_ascii_of_string template)
    (list_ascii_of_string (uuidv4 rnd))
  ∧ String.length (uuidv4 rnd) = 36%nat
  ∧ Store.valid_key (VStr (uuidv4 rnd)) = true.
Proof.
  intros Hrnd. pose proof (replace_xy_fits rnd 0 template Hrnd) as H.
  split; [exact H|]. split; [|done].
  apply Forall2_length in H.
  assert (∀ s, length (list_ascii_of_string s) = String.length s) as Hlen.
  { induction s as [|c s IHs]; [done|]. cbn. by rewrite IHs. }
  rewrite !Hlen in H. unfold uuidv4. by rewrite <- H.
Qed.

Lemma uuidv4_format_witness :
  uuidv4 (λ j, j mod 16)%nat = "01234567-89ab-4cde-b012-3456789abcde"
  ∧ String.length (uuidv4 (λ j, j mod 16)%nat) = 36%nat.
Proof.
  split; [reflexivity|].
  apply (uuidv4_format (λ j, j mod 16)%nat).
  intros j. apply Nat.mod_upper_bound. lia.
Defined.

End UuidFacts.

(** ** The pages of the history *)

Section PagingFacts.

Import Paging.

Local Open Scope Z_scope.

Lemma totalPages_range (n : nat) :
  1 ≤ totalPages n ∧ Z.of_nat n ≤ pageSize * totalPages n
  ∧ ((0 < n)%nat → pageSize * (totalPages n - 1) < Z.of_nat n).
Proof.
  unfold totalPages, ceil_div, pageSize.
  pose proof (Z_div_mod_eq_full (- Z.of_nat n) 5) as H1.
  pose proof (Z.mod_pos_bound (- Z.of_nat n) 5) as H2. lia.
Qed.

(** A page that exists is the five records from its start. *)
Lemma pagedTransactions_chunk {A} (l : list A) (p : Z) :
  1 ≤ p ≤ totalPages (length l) →
  pagedTransactions l p = take 5 (drop (5 * Z.to_nat (p - 1)) l).
Proof.
  intros Hp. unfold pagedTransactions, startIndex, currentPage, slice.
  rewrite Z.min_l by lia. unfold rel_index, pageSize.
  set (len := length l).
  destruct (Z.ltb_spec ((p - 1) * 5) 0) as [?|_]; [lia|].
  destruct (Z.ltb_spec ((p - 1) * 5 + 5) 0) as [?|_]; [lia|].
  destruct (decide (Z.of_nat len ≤ (p - 1) * 5)) as [Hge|Hlt].
  - rewrite !drop_ge by (fold len; lia). by rewrite !take_nil.
  - replace (Z.to_nat (Z.min ((p - 1) * 5) (Z.of_nat len)))
      with (5 * Z.to_nat (p - 1))%nat by lia.
    destruct (decide ((p - 1) * 5 + 5 ≤ Z.of_nat len)) as [Hfull|Hpart].
    + f_equal. lia.
    + rewrite !take_ge; [done| |]; rewrite length_drop; fold len; lia.
Qed.

Lemma chunks_concat {A} (m : nat) (l : list A) :
  (length l ≤ 5 * m)%nat →
  concat (map (λ i, take 5 (drop (5 * i) l)) (seq 0 m)) = l.
Proof.
  revert l. induction m as [|m IH]; intros l Hl.
  - destruct l; [done|]. cbn in Hl. lia.
  - cbn [seq map concat]. rewrite <- fmap_S_seq.
    change (map ?f (S <$> ?s)) with (map f (map S s)). rewrite map_map.
    rewrite (map_ext _ (λ i, take 5 (drop (5 * i) (drop 5 l)))).
    2:{ intros i. rewrite drop_drop. do 2 f_equal. lia. }
    rewrite IH by (rewrite length_drop; lia).
    change (drop (5 * 0) l) with l. apply take_drop.
Qed.

(** X8. The pages of a list, from the first to the last, put end to end
    are the list: every record is on exactly one page, in order.  No page,
    whatever the page number asked for, shows more than five records. *)
Theorem pages_partition {A} (l : list A) :
  concat (map (pagedTransactions l) (seqZ 1 (totalPages (length l)))) = l
  ∧ ∀ page, (length (pagedTransactions l page) ≤ 5)%nat.
Proof.
  split.
  - destruct (totalPages_range (length l)) as (H1 & H2 & _).
    unfold seqZ. change (map ?f (?g <$> ?s)) with (map f (map g s)).
    rewrite map_map.
    rewrite (map_ext_in _ (λ i, take 5 (drop (5 * i) l))).
    + apply chunks_concat. unfold pageSize in H2. lia.
    + intros i Hi%in_seq. rewrite pagedTransactions_chunk by lia.
      do 2 f_equal. lia.
  - intros page. unfold pagedTransactions, slice. rewrite length_take.
    unfold rel_index, pageSize.
    destruct (Z.ltb_spec (startIndex page (length l)) 0),
      (Z.ltb_spec (startIndex page (length l) + 5) 0); lia.
Qed.

(** X9. For a page number not below 1 the page shown exists, and shows at
    least one record when there is any.  [goToPage] always lands on a page
    that exists, and leaves such a page number as it is. *)
Theorem currentPage_exists {A} (l : list A) (page p : Z) :
  1 ≤ page →
  1 ≤ currentPage page (length l) ≤ totalPages (length l)
  ∧ (l ≠ [] → pagedTransactions l page ≠ [])
  ∧ 1 ≤ goToPage p (length l) ≤ totalPages (length l)
  ∧ (1 ≤ p ≤ totalPages (length l) → goToPage p (length l) = p).
Proof.
  intros Hpage. destruct (totalPages_range (length l)) as (H1 & H2 & H3).
  unfold currentPage, goToPage. split_and!; try lia.
  intros Hl.
  assert (0 < length l)%nat as Hlen by (destruct l; [done|cbn; lia]).
  specialize (H3 Hlen). unfold pageSize in H3.
  assert (pagedTransactions l page
          = pagedTransactions l (Z.min page (totalPages (length l)))) as ->.
  { assert (Z.min (Z.min page (totalPages (length l))) (totalPages (length l))
            = Z.min page (totalPages (length l))) as Hm by lia.
    unfold pagedTransactions, startIndex, currentPage. by rewrite Hm. }
  rewrite pagedTransactions_chunk by lia.
  intros Hnil. apply (f_equal length) in Hnil.
  rewrite length_take, length_drop in Hnil. cbn [length] in Hnil. lia.
Qed.

Lemma currentPage_exists_witness :
  pagedTransactions [1; 2; 3; 4; 5; 6; 7] 9 ≠ [].
Proof.
  apply (currentPage_exists [1; 2; 3; 4; 5; 6; 7] 9 1); [lia|done].
Defined.

Lemma numbers_Num (l : list Z) : numbers (Num <$> l) = l.
Proof. induction l as [|x l IH]; [done|]. cbn. by f_equal. Qed.

Lemma numbers_getPageItems (cur total : Z) :
  numbers (getPageItems cur total)
  = ((if 1 <=? total then [1] else [])
     ++ seqZ (Z.max 2 (cur - 1))
          (Z.min (total - 1) (cur + 1) - Z.max 2 (cur - 1) + 1)
     ++ (if 1 <? total then [total] else []))%list.
Proof.
  unfold getPageItems, numbers. rewrite !omap_app.
  fold (numbers (Num <$> seqZ (Z.max 2 (cur - 1))
                   (Z.min (total - 1) (cur + 1) - Z.max 2 (cur - 1) + 1))).
  rewrite numbers_Num.
  by destruct (1 <=? total), (2 <? cur - 1), (cur + 1 <? total - 1),
    (1 <? total).
Qed.

(** X10. The pagination bar of a page that exists: the page numbers it
    shows are numbers of pages that exist, no number is shown twice, and
    the first page, the last page, the current page and its neighbours are
    among them. *)
Theorem getPageItems_numbers (cur total : Z) :
  1 ≤ cur ≤ total →
  (∀ p, p ∈ numbers (getPageItems cur total) → 1 ≤ p ≤ total)
  ∧ NoDup (numbers (getPageItems cur total))
  ∧ (∀ p, 1 ≤ p ≤ total → p = 1 ∨ p = total ∨ cur - 1 ≤ p ≤ cur + 1 →
       p ∈ numbers (getPageItems cur total)).
Proof.
  intros Hcur. rewrite numbers_getPageItems.
  destruct (Z.leb_spec 1 total) as [_|?]; [|lia].
  split_and!.
  - intros p. rewrite !elem_of_app, elem_of_seqZ, list_elem_of_singleton.
    destruct (Z.ltb_spec 1 total);
      rewrite ?list_elem_of_singleton, ?elem_of_nil; lia.
  - apply list.NoDup_app. split_and!.
    + apply NoDup_singleton.
    + intros p ->%list_elem_of_singleton.
      rewrite elem_of_app, elem_of_seqZ.
      destruct (Z.ltb_spec 1 total);
        rewrite ?list_elem_of_singleton, ?elem_of_nil; lia.
    + apply list.NoDup_app. split_and!.
      * apply NoDup_seqZ.
      * intros p Hp%elem_of_seqZ.
        destruct (Z.ltb_spec 1 total);
          rewrite ?list_elem_of_singleton, ?elem_of_nil; lia.
      * destruct (1 <? total); [apply NoDup_singleton|apply NoDup_nil_2].
  - intros p Hp Hor.
    rewrite !elem_of_app, elem_of_seqZ, list_elem_of_singleton.
    destruct (Z.ltb_spec 1 total);
      rewrite ?list_elem_of_singleton, ?elem_of_nil; lia.
Qed.

Lemma getPageItems_numbers_witness :
  getPageItems 5 10 = [Num 1; Dots; Num 4; Num 5; Num 6; Dots; Num 10]
  ∧ NoDup (numbers (getPageItems 5 10)).
Proof.
  split; [reflexivity|].
  apply (getPageItems_numbers 5 10). lia.
Defined.

End PagingFacts.

(** ** The mirror and its order *)

Section MirrorFacts.

Import Keeping.

Lemma insert_sorted_Permutation cmp (x : record) (l : list record) :
  insert_sorted cmp x l ≡ₚ x :: l.
Proof.
  induction l as [|y l IH]; cbn; [done|].
  destruct (cmp x y <=? 0)%Z; [done|].
  rewrite IH. apply Permutation_swap.
Qed.

Lemma sort_Permutation cmp (l : list record) : sort cmp l ≡ₚ l.
Proof.
  induction l as [|x l IH]; cbn; [done|].
  fold (sort cmp l). by rewrite insert_sorted_Permutation, IH.
Qed.

Lemma not_older_trans (a b c : record) :
  not_older a b → not_older b c → not_older a c.
Proof.
  intros (ta & tb & Ha & Hb & Hab) (tb' & tc & Hb' & Hc & Hbc).
  rewrite Hb in Hb'. injection Hb' as <-. exists ta, tc. split_and!; [done..|lia].
Qed.

Lemma by_date_desc_spec (a b : record) (ta tb : Z) :
  created a = Some ta → created b = Some tb →
  by_date_desc a b = (tb - ta)%Z.
Proof. unfold created, by_date_desc. by intros -> ->. Qed.

Lemma insert_sorted_sorted (x : record) (l : list record) :
  is_Some (created x) → Forall (λ r, is_Some (created r)) l →
  StronglySorted not_older l →
  StronglySorted not_older (insert_sorted by_date_desc x l).
Proof.
  intros [tx Hx] Hall Hs. induction Hs as [|y l Hs IH Hy]; cbn.
  - repeat constructor.
  - apply list.Forall_cons in Hall as [[ty Hty] Hall].
    rewrite (by_date_desc_spec x y tx ty Hx Hty).
    destruct (Z.leb_spec (ty - tx) 0) as [Hle|Hgt].
    + assert (not_older x y) as Hxy.
      { exists tx, ty. split_and!; [done..|lia]. }
      constructor; [by constructor|]. constructor; [done|].
      eapply Forall_impl; [|exact Hy]. intros z Hz.
      by eapply not_older_trans.
    + constructor; [by apply IH|].
      apply Forall_insert_sorted; [|done].
      exists ty, tx. split_and!; [done..|lia].
Qed.

(** X11. [loadTransactions] shows what the store holds, newest first: the
    sorted list has the records of the list it was given, each as often,
    and when every record has a creation date no record comes before one
    that was created later. *)
Theorem sort_by_date_newest_first (l : list record) :
  sort by_date_desc l ≡ₚ l
  ∧ (Forall (λ r, is_Some (created r)) l →
     StronglySorted not_older (sort by_date_desc l)).
Proof.
  split; [apply sort_Permutation|].
  induction 1 as [|x l Hx Hl IH]; cbn; [constructor|].
  fold (sort by_date_desc l). apply insert_sorted_sorted; [done| |done].
  by rewrite sort_Permutation.
Qed.

Lemma sort_by_date_newest_first_witness :
  sort by_date_desc [Sample.A; Sample.B] = [Sample.B; Sample.A]
  ∧ StronglySorted not_older (sort by_date_desc [Sample.A; Sample.B]).
Proof.
  split; [compute_done|].
  apply (sort_by_date_newest_first [Sample.A; Sample.B]).
  repeat constructor; by eexists.
Defined.

Lemma ids_getAllTransactions (d : store) :
  wf_store d → ids (getAllTransactions d) = (map_to_list d).*1.
Proof.
  intros Hwf. unfold ids, getAllTransactions.
  change (map ?f (?g <$> ?l)) with (map f (map g l)). rewrite map_map.
  apply map_ext_in. intros [k r] Hin. cbn.
  apply list_elem_of_In, elem_of_map_to_list in Hin.
  by destruct (Hwf _ _ Hin) as [Hid _].
Qed.

(** X12. After [loadTransactions] the mirror holds exactly the records of
    the store, and no two of its entries have the same id (the table
    rows, keyed by [t.id], are distinct). *)
Theorem loadTransactions_mirror (w : world) :
  wf_store (db w) →
  (∀ t, t ∈ transactions (loadTransactions w)
        ↔ ∃ k, db w !! k = Some t)
  ∧ NoDup (ids (transactions (loadTransactions w)))
  ∧ length (transactions (loadTransactions w)) = size (db w)
  ∧ db (loadTransactions w) = db w.
Proof.
  intros Hwf. cbn [loadTransactions setTransactions transactions db].
  pose proof (sort_Permutation by_date_desc (getAllTransactions (db w))) as Hp.
  split_and!; [| | |done].
  - intros t. rewrite Hp. apply elem_of_getAllTransactions.
  - unfold ids. change (map ?f ?l) with (f <$> l). rewrite Hp.
    change ((λ t, prop t "id") <$> ?l) with (ids l).
    rewrite ids_getAllTransactions by done. apply NoDup_fst_map_to_list.
  - rewrite Hp. apply length_getAllTransactions.
Qed.

Lemma loadTransactions_mirror_witness :
  NoDup (ids (transactions (loadTransactions Sample.pageAB)))
  ∧ length (transactions (loadTransactions Sample.pageAB)) = 2%nat.
Proof.
  assert (wf_store (db Sample.pageAB)) as Hwf by compute_done.
  destruct (loadTransactions_mirror Sample.pageAB Hwf) as (_ & Hnd & Hlen & _).
  split; [exact Hnd|]. rewrite Hlen. compute_done.
Defined.

End MirrorFacts.

(** ** Cycles that do not go well *)

Section CycleFacts.

Import Keeping.

Lemma sync_end_fields (v : variant) (c : caller) (w : world) :
  db (sync_end v c w) = db w
  ∧ transactions (sync_end v c w) = transactions w
  ∧ sent (sync_end v c w) = sent w
  ∧ syncing (sync_end v c w) = false
  ∧ onLine (sync_end v c w) = onLine w
  ∧ tasks (sync_end v c w) = tasks w.
Proof. by destruct c, v. Qed.

(** X13. When the transport fails, answers with a falsy value or answers
    without [ok], the cycle ends there: the store and the mirror are what
    they were (every pending record is still pending), the [syncing] flag
    is down, and nothing is left suspended. *)
Theorem trySync_refused (send : list record → reply) (v : variant)
    (c : caller) (snap : list record) (w : world) :
  refused (send (filter is_pending snap)) = true →
  (trySync send v c snap w).2 = None
  ∧ db (trySync send v c snap w).1 = db w
  ∧ transactions (trySync send v c snap w).1 = transactions w
  ∧ syncing (trySync send v c snap w).1 = false
  ∧ sent (trySync send v c snap w).1 = (sent w ++ submitted snap)%list.
Proof.
  intros Href. unfold refused in Href. unfold trySync, trySync_call, submitted.
  destruct (filter is_pending snap) as [|p0 p] eqn:Hp.
  - rewrite drive_done. cbn [fst snd].
    destruct (sync_end_fields v c (setSyncing true (count_sync w)))
      as (-> & -> & -> & -> & _).
    by rewrite app_nil_r.
  - rewrite drive_step. cbn [resume]. unfold sync_reply.
    destruct (send (p0 :: p)) as [[res|]|]; [destruct (ok res); [done|]|..];
      rewrite drive_done; cbn [fst snd];
      by destruct (sync_end_fields v c
                     (log_sent (p0 :: p) (setSyncing true (count_sync w))))
        as (-> & -> & -> & -> & _).
Qed.

Lemma trySync_refused_witness :
  (trySync (λ _, Failure) Prototype FromForce [Sample.B; Sample.A]
     Sample.pageAB).2 = None
  ∧ db (trySync (λ _, Failure) Prototype FromForce [Sample.B; Sample.A]
          Sample.pageAB).1 = db Sample.pageAB.
Proof.
  destruct (trySync_refused (λ _, Failure) Prototype FromForce
              [Sample.B; Sample.A] Sample.pageAB eq_refl) as (H1 & H2 & _).
  exact (conj H1 H2).
Defined.

(** The updates of one cycle, whether or not the store holds the ids. *)
Lemma apply_updates_synced_any (l : list value) (t : Z) (d : store) :
  wf_store d →
  (∀ k, (apply_updates (map (λ id, (id, synced_patch t)) l) d).2 !! k
        = if decide (k ∈ l)
          then (λ r, spread r (synced_patch t)) <$> d !! k
          else d !! k)
  ∧ existsb is_unsettled
      (apply_updates (map (λ id, (id, synced_patch t)) l) d).1 = false
  ∧ (existsb is_rejected
       (apply_updates (map (λ id, (id, synced_patch t)) l) d).1 = true
     ↔ ∃ id, id ∈ l ∧ d !! id = None).
Proof.
  assert (synced_patch t !! keyPath = None) as Hp
    by (by rewrite synced_patch_lookup).
  revert d. induction l as [|id l IH]; intros d Hwf.
  - cbn. split_and!; [done..|]. split; [done|]. by intros (? & []%elem_of_nil & _).
  - cbn [map apply_updates].
    pose proof (updateTransaction_wf id (synced_patch t) d Hwf) as Hwf1.
    rewrite (updateTransaction_cases id _ d Hwf Hp) in Hwf1 |- *.
    destruct (d !! id) as [r|] eqn:Hr; cbn [snd] in Hwf1.
    + destruct (IH _ Hwf1) as (Hlook & Huns & Hrej).
      destruct (apply_updates (map (λ id0, (id0, synced_patch t)) l)
                  (<[id := spread r (synced_patch t)]> d)) as [os d2].
      cbn [fst snd existsb is_rejected is_unsettled orb] in *.
      split_and!; [|done|].
      * intros k. rewrite Hlook, lookup_insert.
        destruct (decide (id = k)) as [->|Hne].
        -- rewrite Hr. cbn. rewrite spread_idemp.
           rewrite (decide_True (P := k ∈ k :: l)) by left. by case_decide.
        -- destruct (decide (k ∈ l)) as [Hk|Hk].
           ++ by rewrite (decide_True (P := k ∈ id :: l)) by (by right).
           ++ rewrite (decide_False (P := k ∈ id :: l)); [done|].
              intros [->|?]%elem_of_cons; done.
      * rewrite Hrej. split.
        -- intros (i & Hi & Hnone). exists i. split; [by right|].
           rewrite lookup_insert in Hnone. by case_decide.
        -- intros (i & [->|Hi]%elem_of_cons & Hnone); [by rewrite Hr in Hnone|].
           exists i. split; [done|]. rewrite lookup_insert.
           case_decide; [by subst; rewrite Hr in Hnone|done].
    + destruct (IH _ Hwf) as (Hlook & Huns & Hrej).
      destruct (apply_updates (map (λ id0, (id0, synced_patch t)) l) d)
        as [os d2].
      cbn [fst snd existsb is_rejected is_unsettled orb] in *.
      split_and!; [|done|].
      * intros k. rewrite Hlook.
        destruct (decide (id = k)) as [->|Hne].
        -- rewrite Hr. cbn. rewrite (decide_True (P := k ∈ k :: l)) by left.
           by case_decide.
        -- destruct (decide (k ∈ l)) as [Hk|Hk].
           ++ by rewrite (decide_True (P := k ∈ id :: l)) by (by right).
           ++ rewrite (decide_False (P := k ∈ id :: l)); [done|].
              intros [->|?]%elem_of_cons; done.
      * split; [|done]. intros _. exists id. split; [left|done].
Qed.

(** X14. When the transport acknowledges an id the store does not hold,
    [Promise.all] rejects: the records of the other acknowledged ids are
    patched in the store all the same, but [loadTransactions] is skipped,
    so the mirror is left as it was; the cycle ends with the flag down. *)
Theorem trySync_unknown_id (send : list record → reply) (v : variant)
    (c : caller) (snap : list record) (w : world) (accepted : list value) :
  wf_store (db w) →
  filter is_pending snap ≠ [] →
  send (filter is_pending snap)
  = Answer (Some {| ok := true; syncedIds := accepted |}) →
  (∃ id, id ∈ accepted ∧ db w !! id = None) →
  (trySync send v c snap w).2 = None
  ∧ transactions (trySync send v c snap w).1 = transactions w
  ∧ syncing (trySync send v c snap w).1 = false
  ∧ ∀ k, db (trySync send v c snap w).1 !! k
         = if decide (k ∈ accepted)
           then (λ r, spread r (synced_patch (now w))) <$> db w !! k
           else db w !! k.
Proof.
  intros Hwf Hne Hsend Hunk.
  destruct (apply_updates_synced_any accepted (now w) (db w) Hwf)
    as (Hlook & _ & Hrej).
  apply Hrej in Hunk. clear Hrej.
  unfold trySync, trySync_call.
  destruct (filter is_pending snap) as [|p0 p] eqn:Hp; [done|].
  rewrite drive_step. cbn [resume]. unfold sync_reply. rewrite Hsend.
  cbn [ok syncedIds]. rewrite drive_step. cbn [resume]. unfold sync_updates.
  cbn [db now log_sent setSyncing count_sync].
  destruct (apply_updates (map (λ id, (id, synced_patch (now w))) accepted)
              (db w)) as [outs d] eqn:Hap.
  cbn [fst snd] in Hunk, Hlook. rewrite Hunk, drive_done. cbn [fst snd].
  split; [done|].
  split; [by destruct c, v|]. split; [by destruct c, v|].
  intros k. rewrite <- Hlook. by destruct c, v.
Qed.

Lemma trySync_unknown_id_witness :
  transactions
    (trySync (λ _, Answer (Some {| ok := true;
                                   syncedIds := [VStr "A"; VStr "Z"] |}))
       Prototype FromForce [Sample.B; Sample.A] Sample.pageAB).1
  = [Sample.B; Sample.A]
  ∧ db (trySync (λ _, Answer (Some {| ok := true;
                                      syncedIds := [VStr "A"; VStr "Z"] |}))
          Prototype FromForce [Sample.B; Sample.A] Sample.pageAB).1
    !! VStr "A"
    = Some (spread Sample.A (synced_patch 3000)).
Proof.
  assert (wf_store (db Sample.pageAB)) as Hwf by compute_done.
  assert (filter is_pending [Sample.B; Sample.A] ≠ []) as Hne by compute_done.
  assert (∃ id, id ∈ [VStr "A"; VStr "Z"] ∧ db Sample.pageAB !! id = None)
    as Hunk by (exists (VStr "Z"); compute_done).
  destruct (trySync_unknown_id
              (λ _, Answer (Some {| ok := true;
                                    syncedIds := [VStr "A"; VStr "Z"] |}))
              Prototype FromForce [Sample.B; Sample.A] Sample.pageAB
              [VStr "A"; VStr "Z"] Hwf Hne eq_refl Hunk)
    as (_ & Hm & _ & Hdb).
  split; [exact Hm|]. rewrite Hdb. compute_done.
Defined.

End CycleFacts.

(** ** What every run keeps *)

Section RunFacts.

Import Keeping.

Lemma keeps_refl (d : store) : keeps d d.
Proof. intros k r Hr. exists r. by split_and!. Qed.

Lemma keeps_trans (d1 d2 d3 : store) : keeps d1 d2 → keeps d2 d3 → keeps d1 d3.
Proof.
  intros H12 H23 k r Hr.
  destruct (H12 _ _ Hr) as (r2 & Hr2 & Hs12 & Hst12).
  destruct (H23 _ _ Hr2) as (r3 & Hr3 & Hs23 & Hst23).
  exists r3. split_and!; [done| |by auto].
  intros f H1 H2. by rewrite Hs23, Hs12.
Qed.

Lemma addTransaction_keeps (tx : record) (d : store) :
  keeps d (addTransaction tx d).2.
Proof.
  unfold addTransaction.
  destruct (valid_key (prop tx keyPath)); [|apply keeps_refl].
  destruct (d !! prop tx keyPath) eqn:Hd; [apply keeps_refl|]. cbn.
  intros k r Hr. exists r. split_and!; try done.
  rewrite lookup_insert_ne; [done|]. intros <-. by rewrite Hd in Hr.
Qed.

Lemma updateTransaction_synced_keeps (id : value) (t : Z) (d : store) :
  wf_store d → keeps d (updateTransaction id (synced_patch t) d).2.
Proof.
  intros Hwf.
  rewrite (updateTransaction_cases id _ d Hwf)
    by (by rewrite synced_patch_lookup).
  destruct (d !! id) as [r|] eqn:Hr; [|apply keeps_refl]. cbn.
  intros k r' Hr'. destruct (decide (id = k)) as [->|Hne].
  - rewrite Hr in Hr'. injection Hr' as <-.
    exists (spread r (synced_patch t)). rewrite lookup_insert_eq.
    destruct (spread_synced_fields r t) as (Hst & _ & Hsame).
    by split_and!.
  - exists r'. rewrite lookup_insert_ne by done. by split_and!.
Qed.

Lemma apply_updates_keeps (ups : list (value * record)) (d : store) :
  wf_store d → Forall (λ u, ∃ t, u.2 = synced_patch t) ups →
  keeps d (apply_updates ups d).2.
Proof.
  intros Hwf Hups. revert d Hwf.
  induction Hups as [|[id patch] ups [t Ht] Hups IH]; intros d Hwf.
  { apply keeps_refl. }
  cbn in Ht. subst patch. cbn [apply_updates].
  pose proof (updateTransaction_synced_keeps id t d Hwf) as Hk.
  pose proof (updateTransaction_wf id (synced_patch t) d Hwf) as Hw.
  destruct (updateTransaction id (synced_patch t) d) as [o d1].
  cbn [snd] in Hk, Hw. specialize (IH d1 Hw).
  destruct (apply_updates ups d1) as [os d2]. cbn [snd] in *.
  by eapply keeps_trans.
Qed.

Lemma resume_keeps (send : list record → reply) (v : variant) (t : task)
    (w : world) :
  wf_store (db w) → task_synced t →
  keeps (db w) (db (resume send v t w).1)
  ∧ wf_store (db (resume send v t w).1)
  ∧ from_option task_synced True (resume send v t w).2.
Proof.
  intros Hwf Ht.
  destruct t as [|snap tx|snap|c batch|c ups|c|]; cbn [resume].
  - split_and!; [apply keeps_refl|done..].
  - unfold submit_added.
    pose proof (addTransaction_keeps tx (db w)) as Hk.
    pose proof (addTransaction_wf tx (db w) Hwf) as Hw.
    destruct (addTransaction tx (db w)) as [[k|e|] d]; cbn [snd] in Hk, Hw;
      cbn [fst snd from_option]; split_and!; try done; by destruct v.
  - unfold submit_loaded.
    destruct (onLine (loadTransactions w)).
    + destruct (trySync_call_sent v FromSubmit snap (loadTransactions w))
        as (_ & _ & Hdb & Hot).
      rewrite Hdb, Hot.
      split_and!; [apply keeps_refl|done|by destruct (filter _ _)].
    + cbn [fst snd from_option].
      assert (db (submit_end v (loadTransactions w)) = db w) as ->
        by (by destruct v).
      split_and!; [apply keeps_refl|done..].
  - unfold sync_reply.
    destruct (send batch) as [[res|]|]; [destruct (ok res)|..];
      cbn [fst snd from_option];
      destruct (sync_end_fields v c w) as (Hdb & _); rewrite ?Hdb;
      split_and!; try done; try apply keeps_refl.
    cbn. apply Forall_forall. intros u (id & <- & _)%in_map_iff. by eexists.
  - unfold sync_updates.
    pose proof (apply_updates_keeps ups (db w) Hwf Ht) as Hk.
    destruct (apply_updates_grows_wf ups (db w) Hwf) as [_ Hw].
    destruct (apply_updates ups (db w)) as [outs d]. cbn [snd] in Hk, Hw.
    destruct (existsb is_rejected outs); [|destruct (existsb is_unsettled outs)];
      cbn [fst snd from_option];
      destruct (sync_end_fields v c (set_db d w)) as (Hdb & _); rewrite ?Hdb;
      by split_and!.
  - unfold sync_load. cbn [fst snd from_option].
    destruct (sync_end_fields v c (loadTransactions w)) as (Hdb & _).
    rewrite Hdb. split_and!; [apply keeps_refl|done..].
  - split_and!; [apply keeps_refl|done..].
Qed.

Lemma step_keeps (send : list record → reply) (v : variant) (e : event)
    (w : world) :
  patches_synced w →
  patches_synced (step send v e w) ∧ keeps (db w) (db (step send v e w)).
Proof.
  intros [Hwf Ht].
  assert (∀ w' ot, db w' = db w → tasks w' = tasks w →
            from_option task_synced True ot →
            patches_synced (push_task ot w')
            ∧ keeps (db w) (db (push_task ot w'))) as Hpush.
  { intros w' ot Hdb Htk Hot. split; [split|].
    - destruct ot; cbn; by rewrite Hdb.
    - destruct ot as [t|]; cbn; rewrite Htk; [|done].
      apply Forall_app. split; [done|]. by constructor.
    - destruct ot; cbn; rewrite Hdb; apply keeps_refl. }
  destruct e as [| | |f id| |i|dt]; cbn [step];
    try (split; [by split|apply keeps_refl]).
  - by apply (Hpush w (Some MountAwaitLoad)).
  - destruct (match v with Prototype => isSubmitting w | MobiLedger => false end);
      [split; [by split|apply keeps_refl]|].
    unfold handleSubmit_call.
    destruct (handleSubmit_tx v f id (now w)) as [tx|];
      [|split; [by split|apply keeps_refl]].
    apply Hpush; by destruct v.
  - destruct (online w && negb (syncing w));
      [|split; [by split|apply keeps_refl]].
    unfold forceSync, trySync_call.
    destruct (negb (onLine w)); [split; [by split|apply keeps_refl]|].
    destruct (filter is_pending (transactions w)); apply Hpush; by destruct v.
  - destruct (tasks w !! i) as [t|] eqn:Hi;
      [|split; [by split|apply keeps_refl]].
    assert (task_synced t) as Hti.
    { rewrite list.Forall_forall in Ht. apply Ht.
      by eapply list_elem_of_lookup_2. }
    destruct (resume_keeps send v t (set_tasks (delete i (tasks w)) w) Hwf Hti)
      as (Hk & Hw & Hot).
    destruct (resume send v t (set_tasks (delete i (tasks w)) w))
      as [w' ot] eqn:Hres. cbn [fst snd] in Hk, Hw, Hot.
    assert (Forall task_synced (tasks w')) as Htk'.
    { assert (tasks w' = delete i (tasks w)) as ->; [|by apply Forall_delete].
      clear -Hres. destruct t; cbn [resume] in Hres.
      - by injection Hres as <- _.
      - unfold submit_added in Hres.
        destruct (addTransaction tx (db _)) as [[]?]; injection Hres as <- _;
          by destruct v.
      - unfold submit_loaded, trySync_call in Hres.
        destruct (onLine _); [destruct (filter _ _)|]; injection Hres as <- _;
          by destruct v.
      - unfold sync_reply in Hres.
        destruct (send batch) as [[res|]|]; [destruct (ok res)|..];
          injection Hres as <- _; by destruct c, v.
      - unfold sync_updates in Hres. destruct (apply_updates _ _).
        destruct (existsb _ _); [|destruct (existsb _ _)];
          injection Hres as <- _; by destruct c, v.
      - injection Hres as <- _. by destruct c, v.
      - by injection Hres as <- _. }
    destruct ot as [t'|]; cbn [push_task]; (split; [split|]); cbn; try done.
    apply Forall_app. split; [done|]. by constructor.
Qed.

(** X15. Whatever happens on the page, and whatever the transport answers,
    between any two moments of a run a record the store holds, be it one
    the page opened on or one recorded since, is never deleted and never
    moves to another key; its fields other than [status] and [synced_at]
    are never changed; and once its status is [synced] it stays
    [synced]. *)
Theorem run_keeps_records (send : list record → reply) (v : variant)
    (es es' : list event) (d : store) (net : bool) (t : Z) :
  wf_store d →
  keeps (db (run send v es (initial d net t)))
    (db (run send v (es ++ es') (initial d net t))).
Proof.
  intros Hwf. unfold run. rewrite foldl_app.
  assert (patches_synced (initial d net t)) as Hw by (by split).
  assert (patches_synced (foldl (λ w e, step send v e w) (initial d net t) es))
    as Hw'.
  { revert Hw. generalize (initial d net t). clear.
    induction es as [|e es IH]; intros w Hw; [done|].
    cbn [foldl]. apply IH. by apply step_keeps. }
  revert Hw'. generalize (foldl (λ w e, step send v e w) (initial d net t) es).
  clear. induction es' as [|e es' IH]; intros w Hw; [apply keeps_refl|].
  cbn [foldl]. destruct (step_keeps send v e w Hw) as [Hw' Hk].
  eapply keeps_trans; [exact Hk|]. by apply IH.
Qed.

Lemma run_keeps_records_witness :
  keeps
    (db (run fakeSendToServer Prototype
           [Submit Sample.formA "B"; Resume 0; Resume 0]
           (initial Sample.dbA true 1000)))
    (db (run fakeSendToServer Prototype
           ([Submit Sample.formA "B"; Resume 0; Resume 0]
            ++ [Mount; Resume 0; ClickForceSync; Resume 0; Resume 0;
                Resume 0])
           (initial Sample.dbA true 1000))).
Proof.
  assert (wf_store Sample.dbA) as Hwf by compute_done.
  exact (run_keeps_records fakeSendToServer Prototype
           [Submit Sample.formA "B"; Resume 0; Resume 0]
           [Mount; Resume 0; ClickForceSync; Resume 0; Resume 0; Resume 0]
           Sample.dbA true 1000 Hwf).
Defined.

End RunFacts.

(** ** Submitting a form, and being offline *)

Section SubmitFacts.

Import Keeping.

Lemma submit_end_fields (v : variant) (w : world) :
  db (submit_end v w) = db w
  ∧ transactions (submit_end v w) = transactions w
  ∧ sent (submit_end v w) = sent w
  ∧ onLine (submit_end v w) = onLine w
  ∧ tasks (submit_end v w) = tasks w.
Proof. by destruct v. Qed.

Lemma push_task_fields (ot : option task) (w : world) :
  db (push_task ot w) = db w
  ∧ transactions (push_task ot w) = transactions w
  ∧ sent (push_task ot w) = sent w
  ∧ onLine (push_task ot w) = onLine w.
Proof. by destruct ot. Qed.

Lemma resume_offline (send : list record → reply) (v : variant) (t : task)
    (w : world) :
  onLine w = false →
  sent (resume send v t w).1 = sent w
  ∧ onLine (resume send v t w).1 = false.
Proof.
  intros Hoff. destruct t as [|snap tx|snap|c batch|c ups|c|]; cbn [resume].
  - done.
  - unfold submit_added.
    destruct (addTransaction tx (db w)) as [[k|e|] d]; cbn [fst];
      rewrite ?(proj1 (proj2 (proj2 (submit_end_fields v _)))),
        ?(proj1 (proj2 (proj2 (proj2 (submit_end_fields v _))))); done.
  - unfold submit_loaded.
    change (onLine (loadTransactions w)) with (onLine w). rewrite Hoff.
    cbn [fst]. by destruct (submit_end_fields v (loadTransactions w))
      as (_ & _ & -> & -> & _).
  - unfold sync_reply.
    destruct (send batch) as [[res|]|]; [destruct (ok res)|..]; cbn [fst];
      try done;
      by destruct (sync_end_fields v c w) as (_ & _ & -> & _ & -> & _).
  - unfold sync_updates. destruct (apply_updates ups (db w)) as [outs d].
    destruct (existsb is_rejected outs); [|destruct (existsb is_unsettled outs)];
      cbn [fst]; try done.
    by destruct (sync_end_fields v c (set_db d w)) as (_ & _ & -> & _ & -> & _).
  - unfold sync_load. cbn [fst].
    by destruct (sync_end_fields v c (loadTransactions w))
      as (_ & _ & -> & _ & -> & _).
  - done.
Qed.

Lemma step_offline (send : list record → reply) (v : variant) (e : event)
    (w : world) :
  onLine w = false → e ≠ GoOnline →
  sent (step send v e w) = sent w ∧ onLine (step send v e w) = false.
Proof.
  intros Hoff He. destruct e as [| | |f id| |i|dt]; cbn [step]; try done.
  - destruct (match v with Prototype => isSubmitting w | MobiLedger => false end);
      [done|].
    unfold handleSubmit_call.
    destruct (handleSubmit_tx v f id (now w)) as [r|]; [|done].
    destruct (push_task_fields (Some (SubmitAwaitAdd (transactions w) r))
                match v with
                | Prototype => setIsSubmitting true w
                | MobiLedger => w
                end) as (_ & _ & -> & ->).
    by destruct v.
  - destruct (online w && negb (syncing w)); [|done].
    unfold forceSync. by rewrite Hoff.
  - destruct (tasks w !! i) as [t|]; [|done].
    destruct (resume_offline send v t (set_tasks (delete i (tasks w)) w) Hoff)
      as [Hs Ho].
    destruct (resume send v t (set_tasks (delete i (tasks w)) w)) as [w' ot].
    cbn [fst] in Hs, Ho.
    by destruct (push_task_fields ot w') as (_ & _ & -> & ->).
Qed.

(** X16. While [navigator.onLine] is false nothing is handed to the
    transport: over any sequence of events without an [online] event, be
    they submissions, clicks on "Forcer sync" or continuations of calls
    that were suspended, the list of batches sent stays as it was. *)
Theorem offline_nothing_sent (send : list record → reply) (v : variant)
    (es : list event) (w : world) :
  onLine w = false → GoOnline ∉ es →
  sent (run send v es w) = sent w ∧ onLine (run send v es w) = false.
Proof.
  unfold run. revert w. induction es as [|e es IH]; intros w Hoff Hes; [done|].
  apply not_elem_of_cons in Hes as [He Hes]. cbn [foldl].
  destruct (step_offline send v e w Hoff) as [Hs Ho]; [done|].
  destruct (IH _ Ho Hes) as [-> ->]. by rewrite Hs.
Qed.

Lemma offline_nothing_sent_witness :
  sent (run fakeSendToServer Prototype
          [Submit Sample.formA "B"; Resume 0; Resume 0; ClickForceSync]
          Sample.offline) = sent Sample.offline.
Proof.
  assert (onLine Sample.offline = false) as Hoff by compute_done.
  assert (GoOnline ∉ [Submit Sample.formA "B"; Resume 0; Resume 0;
                      ClickForceSync]) as Hes by compute_done.
  apply (offline_nothing_sent fakeSendToServer Prototype _ Sample.offline
           Hoff Hes).
Defined.

Lemma handleSubmit_tx_fields (v : variant) (f : form) (id : string) (t : Z)
    (tx : record) :
  handleSubmit_tx v f id t = Some tx →
  prop tx "id" = VStr id
  ∧ prop tx "status" = VStr "pending"
  ∧ tx !! "synced_at" = None
  ∧ prop tx "created_at" = VTime t
  ∧ prop tx "type" = VStr (f_type f).
Proof.
  unfold handleSubmit_tx, falsy. destruct v.
  - destruct (bool_decide (f_nom_complet f = "")),
      (bool_decide (f_id_document f = "")),
      (bool_decide (f_telephone f = "")),
      (bool_decide (f_montant f = "")); try done.
    intros [= <-]. unfold prop. cbn [list_to_map foldr fst snd].
    split_and!; by simplify_map_eq.
  - destruct (bool_decide (f_prenom f = "")), (bool_decide (f_nom f = "")),
      (bool_decide (f_id_document f = "")),
      (bool_decide (f_telephone f = "")),
      (bool_decide (f_montant f = "")); try done.
    intros [= <-]. unfold prop. cbn [list_to_map foldr fst snd].
    split_and!; by simplify_map_eq.
Qed.

(** X17. A form that passes the validation, submitted on an idle page with
    an id the store does not hold yet: once [addTransaction] and
    [loadTransactions] have answered, the store holds the record under its
    id, pending and with no [synced_at], every other entry is as before,
    and the record is in the mirror.  Offline, nothing was sent and nothing
    is left suspended. *)
Theorem submit_stores_pending (send : list record → reply) (v : variant)
    (f : form) (id : string) (w : world) (tx : record) :
  handleSubmit_tx v f id (now w) = Some tx →
  tasks w = [] → isSubmitting w = false →
  wf_store (db w) → db w !! VStr id = None →
  db (run send v [Submit f id; Resume 0; Resume 0] w) !! VStr id = Some tx
  ∧ is_pending tx ∧ tx !! "synced_at" = None
  ∧ tx ∈ transactions (run send v [Submit f id; Resume 0; Resume 0] w)
  ∧ (∀ k, k ≠ VStr id →
       db (run send v [Submit f id; Resume 0; Resume 0] w) !! k = db w !! k)
  ∧ (onLine w = false →
     sent (run send v [Submit f id; Resume 0; Resume 0] w) = sent w
     ∧ tasks (run send v [Submit f id; Resume 0; Resume 0] w) = []).
Proof.
  intros Htx Htasks Hsub Hwf Hfresh.
  destruct (handleSubmit_tx_fields v f id (now w) tx Htx)
    as (Hid & Hst & Hsy & _).
  set (w1 := match v with Prototype => setIsSubmitting true w | MobiLedger => w end).
  set (d' := <[VStr id := tx]> (db w)).
  assert (step send v (Submit f id) w
          = set_tasks [SubmitAwaitAdd (transactions w) tx] w1) as H1.
  { cbn [step]. unfold handleSubmit_call. rewrite Htx.
    assert (match v with Prototype => isSubmitting w | MobiLedger => false end
            = false) as -> by (by destruct v).
    cbn [push_task]. fold w1.
    assert (tasks w1 = []) as -> by (by destruct v). done. }
  assert (addTransaction tx (db w) = (Resolved (VStr id), d')) as Hadd.
  { unfold addTransaction, keyPath. by rewrite Hid, Hfresh. }
  assert (step send v (Resume 0) (set_tasks [SubmitAwaitAdd (transactions w) tx] w1)
          = set_tasks [SubmitAwaitLoad (transactions w)] (set_db d' w1)) as H2.
  { cbn [step tasks set_tasks lookup list_lookup delete list_delete].
    cbn [resume]. unfold submit_added.
    assert (db (set_tasks [] (set_tasks [SubmitAwaitAdd (transactions w) tx] w1))
            = db w) as -> by (by destruct v).
    rewrite Hadd. cbn [push_task tasks set_db set_tasks app]. by destruct v. }
  set (w2 := set_tasks [SubmitAwaitLoad (transactions w)] (set_db d' w1)).
  set (w3 := loadTransactions (set_tasks [] w2)).
  assert (db w3 = d' ∧ tasks w3 = [] ∧ sent w3 = sent w
          ∧ onLine w3 = onLine w
          ∧ transactions w3 = sort by_date_desc (getAllTransactions d'))
    as (Hdb3 & Htk3 & Hsent3 & Hon3 & Hm3) by (by destruct v).
  assert (∃ w4 ot, step send v (Resume 0) w2 = push_task ot w4
                   ∧ db w4 = d' ∧ transactions w4 = transactions w3
                   ∧ (onLine w = false →
                      ot = None ∧ sent w4 = sent w ∧ tasks w4 = []))
    as (w4 & ot & H3 & Hdb4 & Hm4 & Hoff4).
  { cbn [step]. change (tasks w2 !! 0%nat)
      with (Some (SubmitAwaitLoad (transactions w))).
    cbn [resume]. change (delete 0%nat (tasks w2)) with (@nil task).
    unfold submit_loaded. fold w3.
    destruct (onLine w3) eqn:Hon.
    - destruct (trySync_call_sent v FromSubmit (transactions w) w3)
        as (_ & _ & Hdb & Hot).
      destruct (trySync_call v FromSubmit (transactions w) w3) as [w4 ot] eqn:Hc.
      exists w4, ot. cbn [fst snd] in Hdb. split_and!; [done|congruence| |].
      + unfold trySync_call in Hc.
        destruct (filter is_pending (transactions w)); injection Hc as <- _;
          by destruct v.
      + intros Hoff. congruence.
    - exists (submit_end v w3), None.
      destruct (submit_end_fields v w3) as (-> & -> & -> & _ & ->).
      by split_and!. }
  unfold run. cbn [foldl]. rewrite H1, H2. fold w2. rewrite H3.
  destruct (push_task_fields ot w4) as (-> & -> & -> & _).
  rewrite Hdb4, Hm4, Hm3. unfold d'. split_and!.
  - by rewrite lookup_insert_eq.
  - done.
  - done.
  - rewrite sort_Permutation. apply elem_of_getAllTransactions.
    exists (VStr id). by rewrite lookup_insert_eq.
  - intros k Hk. by rewrite lookup_insert_ne.
  - intros Hoff. destruct (Hoff4 Hoff) as (-> & Hs & Ht).
    cbn [push_task]. by rewrite Hs, Ht.
Qed.

Lemma submit_stores_pending_witness :
  ∃ tx, db (run fakeSendToServer Prototype
              [Submit Sample.formA "B"; Resume 0; Resume 0] Sample.offline)
        !! VStr "B" = Some tx
        ∧ is_pending tx
        ∧ tasks (run fakeSendToServer Prototype
                   [Submit Sample.formA "B"; Resume 0; Resume 0]
                   Sample.offline) = [].
Proof.
  assert (tasks Sample.offline = []) as Ht by compute_done.
  assert (isSubmitting Sample.offline = false) as Hs by compute_done.
  assert (wf_store (db Sample.offline)) as Hwf by compute_done.
  assert (db Sample.offline !! VStr "B" = None) as Hf by compute_done.
  assert (onLine Sample.offline = false) as Hoff by compute_done.
  eexists.
  destruct (submit_stores_pending fakeSendToServer Prototype Sample.formA "B"
              Sample.offline _ eq_refl Ht Hs Hwf Hf)
    as (Hdb & Hp & _ & _ & _ & Hsent).
  split; [exact Hdb|]. split; [exact Hp|]. by apply Hsent.
Defined.

End SubmitFacts.

(** ** The cache worker, offline *)

Section WorkerFacts.

Import Worker.

Lemma fetch_all_answers (net : network) (reqs : list request)
    (entries : list (request * response)) :
  fetch_all net reqs = Some entries →
  ∀ e, e ∈ entries →
    net e.1 = Some e.2 ∧ e.1 ∈ reqs ∧ addAll_accepts e.2 = true.
Proof.
  revert entries. induction reqs as [|q reqs IH]; intros entries; cbn.
  - by intros [= <-] e ?%elem_of_nil.
  - destruct (net q) as [resp|] eqn:Hq; [|done].
    destruct (addAll_accepts resp) eqn:Hok; [|done].
    destruct (fetch_all net reqs) as [l|]; [|done].
    intros [= <-] e [->|He]%elem_of_cons; [split_and!; [done|left|done]|].
    destruct (IH l eq_refl e He) as (? & ? & ?). split_and!; [done|by right|done].
Qed.

Lemma match_in_app_empty (u name : string) (st : storage) :
  match_in u (st ++ [(name, ∅)]) = match_in u st.
Proof.
  induction st as [|[n c] st IH]; cbn; [done|].
  by destruct (c !! u).
Qed.

Lemma caches_match_open (req : request) (name : string) (st : storage) :
  caches_match req (caches_open name st) = caches_match req st.
Proof.
  unfold caches_match, caches_open. case_decide; [|done].
  case_decide; [done|]. apply match_in_app_empty.
Qed.






Lemma append_cancel (a b c : string) : a ++ b = a ++ c → b = c.
Proof. induction a as [|x a IH]; cbn; [done|]. intros [= H]. by apply IH. Qed.

Lemma cache_put_last_get (name : string) (req : request) (resp : response)
    (st : storage) (c : cache) :
  name ∉ caches_keys st → method req = "GET" →
  cache_put name req resp (st ++ [(name, c)])%list
  = (st ++ [(name, <[url req := resp]> c)])%list.
Proof.
  intros Hn Hget. unfold cache_put, caches_open.
  rewrite (decide_True (P := name ∈ _)).
  2:{ unfold caches_keys. rewrite fmap_app. apply elem_of_app. right. left. }
  rewrite decide_True by done.
  rewrite map_app, map_rename_absent by done. cbn. by rewrite decide_True.
Qed.

Lemma foldl_cache_put_content (name : string)
    (entries : list (request * response)) (st : storage) (c : cache) :
  name ∉ caches_keys st →
  (∀ e, e ∈ entries → method e.1 = "GET") →
  (∀ e e', e ∈ entries → e' ∈ entries → url e.1 = url e'.1 → e.2 = e'.2) →
  ∃ c', foldl (λ s e, cache_put name e.1 e.2 s) (st ++ [(name, c)])%list entries
        = (st ++ [(name, c')])%list
        ∧ (∀ e, e ∈ entries → c' !! url e.1 = Some e.2)
        ∧ (∀ u, u ∉ map (λ e, url e.1) entries → c' !! u = c !! u).
Proof.
  intros Hn. revert c. induction entries as [|[q r] entries IH];
    intros c Hget Hsame.
  - exists c. split_and!; [done| |done]. by intros e ?%elem_of_nil.
  - cbn [foldl fst snd].
    rewrite (cache_put_last_get name q r st c Hn) by (apply (Hget (q, r)); left).
    destruct (IH (<[url q := r]> c)) as (c' & -> & Hin & Hout).
    { intros e He. apply Hget. by right. }
    { intros e e' He He'. apply Hsame; by right. }
    exists c'. split_and!; [done| |].
    + intros e [->|He]%elem_of_cons; [|by apply Hin]. cbn [fst snd].
      destruct (decide (url q ∈ map (λ e, url e.1) entries)) as [Hd|Hd].
      * apply list_elem_of_fmap in Hd as (e' & Hu & He').
        rewrite Hu, (Hin e' He'). f_equal. symmetry.
        apply (Hsame (q, r) e'); [left|by right|done].
      * rewrite (Hout _ Hd). by rewrite lookup_insert_eq.
    + intros u Hu. cbn [map fst] in Hu.
      apply not_elem_of_cons in Hu as [Hu1 Hu2].
      rewrite (Hout _ Hu2). by rewrite lookup_insert_ne.
Qed.

(** After a first installation the version's cache, created last, holds
    for every precached URL the response the network gave for it. *)
Lemma install_fresh_content (cfg : config) (origin : string) (net : network)
    (st : storage) :
  CACHE_NAME cfg ∉ caches_keys st →
  (install cfg origin net st).1 = true →
  ∃ c, (install cfg origin net st).2 = (st ++ [(CACHE_NAME cfg, c)])%list
       ∧ ∀ p, p ∈ PRECACHE_URLS cfg →
           is_Some (net (GET origin p))
           ∧ c !! (origin ++ p) = net (GET origin p).
Proof.
  intros Hn. unfold install, caches_open. rewrite decide_False by done.
  destruct (fetch_all net (map (GET origin) (PRECACHE_URLS cfg)))
    as [entries|] eqn:Hf; [|done]. intros _. cbn [snd].
  pose proof (fetch_all_answers _ _ _ Hf) as Hans.
  pose proof (fetch_all_requests _ _ _ Hf) as Hreqs.
  destruct (foldl_cache_put_content (CACHE_NAME cfg) entries st ∅ Hn)
    as (c & -> & Hin & _).
  - intros e He. destruct (Hans e He) as (_ & Hq & _).
    by apply list_elem_of_fmap in Hq as (p & -> & _).
  - intros e e' He He' Hu.
    destruct (Hans e He) as (Hr & (p & Hp & _)%list_elem_of_fmap & _).
    destruct (Hans e' He') as (Hr' & (p' & Hp' & _)%list_elem_of_fmap & _).
    rewrite Hp, Hp' in Hu. cbn in Hu. apply append_cancel in Hu. subst p'.
    rewrite <- Hp' in Hp. rewrite Hp in Hr. rewrite Hr in Hr'. by injection Hr'.
  - exists c. split; [done|]. intros p Hp.
    assert (GET origin p ∈ map fst entries) as Hq.
    { rewrite Hreqs. apply list_elem_of_fmap. by exists p. }
    apply list_elem_of_fmap in Hq as ([q r] & Heq & He). cbn in Heq. subst q.
    destruct (Hans _ He) as [Hr _]. cbn in Hr. rewrite Hr.
    split; [by eexists|]. by apply (Hin _ He).
Qed.

(** X19. Once version 2 has been installed for the first time and
    activated, the precached files are served with no network: a [GET] for
    a precached URL that is not a navigation is answered with the response
    stored at install, the network is not asked and the caches are left as
    they are; and a navigation, when the network fails, is answered with
    the precached [/index.html]. *)
Theorem W2_serves_precache_offline (origin : string) (net net' : network)
    (st : storage) :
  CACHE_NAME v2 ∉ caches_keys st →
  (install v2 origin net st).1 = true →
  (∀ p md, p ∈ PRECACHE_URLS v2 → md ≠ "navigate" →
     is_Some (net (GET origin p))
     ∧ W2.fetch origin net'
         {| url := origin ++ p; method := "GET"; mode := md |}
         (W2.activate (install v2 origin net st).2)
       = {| answer := net (GET origin p);
            caches := W2.activate (install v2 origin net st).2;
            fetched := [] |})
  ∧ (∀ req, mode req = "navigate" → net' req = None →
       is_Some (net (GET origin "/index.html"))
       ∧ answer (W2.fetch origin net' req
                   (W2.activate (install v2 origin net st).2))
         = net (GET origin "/index.html")).
Proof.
  intros Hn Hok.
  destruct (install_fresh_content v2 origin net st Hn Hok) as (c & -> & Hc).
  rewrite W2_activate_filter, list.filter_app, filter_name_absent by done.
  rewrite filter_cons_True by done. rewrite filter_nil. cbn [app].
  split.
  - intros p md Hp Hmd. destruct (Hc p Hp) as [[resp Hresp] Hlook].
    split; [by eexists|].
    unfold W2.fetch. cbn [mode]. rewrite decide_False by done.
    unfold cache_first, caches_match. cbn [method url match_in].
    rewrite decide_True by done. by rewrite Hlook, Hresp.
  - intros req Hnav Hfail.
    destruct (Hc "/index.html") as [[resp Hresp] Hlook]; [compute_done|].
    split; [by eexists|].
    unfold W2.fetch. rewrite decide_True by done. rewrite Hfail. cbn [answer].
    unfold caches_match. cbn [GET method url match_in].
    rewrite decide_True by done. by rewrite Hlook, Hresp.
Qed.

Lemma W2_serves_precache_offline_witness :
  answer (W2.fetch Sample.origin Sample.offline_net
            {| url := Sample.origin ++ "/manifest.json"; method := "GET";
               mode := "cors" |}
            Sample.caches_v1_then_v2)
  = Sample.net "second" (GET Sample.origin "/manifest.json").
Proof.
  assert (CACHE_NAME v2 ∉ caches_keys Sample.caches_v1) as Hfresh
    by compute_done.
  assert ((install v2 Sample.origin (Sample.net "second") Sample.caches_v1).1
          = true) as Hok by compute_done.
  destruct (W2_serves_precache_offline Sample.origin (Sample.net "second")
              Sample.offline_net Sample.caches_v1 Hfresh Hok) as [Hget _].
  destruct (Hget "/manifest.json" "cors") as [_ Heq];
    [compute_done|compute_done|].
  unfold Sample.caches_v1_then_v2. by rewrite Heq.
Defined.

End WorkerFacts.

(** ** What the fetch listeners store *)

Section WorkerWrites.

Import Worker.

Lemma match_in_put (name : string) (req : request) (resp : response)
    (st : storage) :
  name ∈ caches_keys st → match_in (url req) st = None →
  match_in (url req)
    (map (λ e, if decide (e.1 = name)
               then (e.1, <[url req := resp]> e.2) else e) st)
  = Some resp.
Proof.
  induction st as [|[n c] st IH]; cbn [map match_in fst snd].
  - by intros ?%elem_of_nil.
  - intros Hin Hnone. destruct (c !! url req) eqn:Hc; [done|].
    case_decide as Hn.
    + by rewrite lookup_insert_eq.
    + rewrite Hc. apply IH; [|done].
      unfold caches_keys in Hin. cbn in Hin.
      by apply elem_of_cons in Hin as [->|Hin].
Qed.

Lemma caches_match_put (name : string) (req : request) (resp : response)
    (st : storage) :
  method req = "GET" → caches_match req st = None →
  caches_match req (cache_put name req resp st) = Some resp.
Proof.
  intros Hget Hnone. unfold caches_match, cache_put in *.
  rewrite !decide_True in * by done. apply match_in_put.
  - unfold caches_open. case_decide; [done|].
    unfold caches_keys. rewrite fmap_app. apply elem_of_app. right. left.
  - unfold caches_open. case_decide; [done|]. by rewrite match_in_app_empty.
Qed.

Lemma cache_first_miss_then_hit (cfg : config) (origin : string)
    (net net' : network) (req : request) (resp : response) (st : storage) :
  method req = "GET" → String.prefix origin (url req) = true →
  caches_match req st = None → net req = Some resp → status resp = 200%nat →
  cache_first cfg origin net req st
  = Some {| answer := Some resp;
            caches := cache_put (CACHE_NAME cfg) req resp st;
            fetched := [req] |}
  ∧ cache_first cfg origin net' req (cache_put (CACHE_NAME cfg) req resp st)
    = Some {| answer := Some resp;
              caches := cache_put (CACHE_NAME cfg) req resp st;
              fetched := [] |}.
Proof.
  intros Hget Hpre Hmiss Hnet H200. unfold cache_first.
  rewrite Hmiss, Hnet, H200, Hpre, bool_decide_eq_true_2 by done.
  cbn [Nat.eqb andb]. split; [done|].
  by rewrite (caches_match_put _ _ _ _ Hget Hmiss).
Qed.

(** X20. What the cache-first branch has stored it serves from then on: when
    a same-origin [GET] misses the caches and the network answers it with
    a 200, the response is stored, and the next fetch of the same request
    is answered with that stored response, without asking the network and
    without changing the caches, whatever the network would answer now.
    This holds for every request of the version-1 worker and for every
    request of the version-2 worker that is not a navigation. *)
Theorem cache_first_serves_what_it_stored (origin : string)
    (net net' : network) (req : request) (resp : response) (st : storage) :
  method req = "GET" → String.prefix origin (url req) = true →
  caches_match req st = None → net req = Some resp → status resp = 200%nat →
  (answer (W1.fetch origin net req st) = Some resp
   ∧ fetched (W1.fetch origin net req st) = [req]
   ∧ W1.fetch origin net' req (caches (W1.fetch origin net req st))
     = {| answer := Some resp;
          caches := caches (W1.fetch origin net req st);
          fetched := [] |})
  ∧ (mode req ≠ "navigate" →
     answer (W2.fetch origin net req st) = Some resp
     ∧ fetched (W2.fetch origin net req st) = [req]
     ∧ W2.fetch origin net' req (caches (W2.fetch origin net req st))
       = {| answer := Some resp;
            caches := caches (W2.fetch origin net req st);
            fetched := [] |}).
Proof.
  intros Hget Hpre Hmiss Hnet H200. split.
  - destruct (cache_first_miss_then_hit v1 origin net net' req resp st)
      as [H1 H2]; try done.
    unfold W1.fetch. rewrite H1. cbn [answer fetched caches]. by rewrite H2.
  - intros Hnav.
    destruct (cache_first_miss_then_hit v2 origin net net' req resp st)
      as [H1 H2]; try done.
    unfold W2.fetch. destruct (decide (mode req = "navigate")); [done|].
    rewrite H1. cbn [answer fetched caches]. by rewrite H2.
Qed.

Lemma cache_first_serves_what_it_stored_witness :
  W1.fetch Sample.origin Sample.offline_net
    (GET Sample.origin "/logo.png")
    (caches (W1.fetch Sample.origin (Sample.net "first")
               (GET Sample.origin "/logo.png") []))
  = {| answer := Sample.net "first" (GET Sample.origin "/logo.png");
       caches := caches (W1.fetch Sample.origin (Sample.net "first")
                           (GET Sample.origin "/logo.png") []);
       fetched := [] |}.
Proof.
  destruct (cache_first_serves_what_it_stored Sample.origin
              (Sample.net "first") Sample.offline_net
              (GET Sample.origin "/logo.png")
              {| status := 200; body := "first:https://mm.example/logo.png" |}
              [])
    as [(_ & _ & H) _]; [compute_done..|].
  rewrite H. f_equal.
Defined.

Lemma filter_others_open (name : string) (st : storage) :
  filter (λ e, e.1 ≠ name) (caches_open name st)
  = filter (λ e, e.1 ≠ name) st.
Proof.
  unfold caches_open. case_decide; [done|].
  rewrite list.filter_app, filter_cons_False, filter_nil by (cbn; tauto).
  by rewrite app_nil_r.
Qed.

Lemma filter_others_put (name : string) (req : request) (resp : response)
    (st : storage) :
  filter (λ e, e.1 ≠ name) (cache_put name req resp st)
  = filter (λ e, e.1 ≠ name) st.
Proof.
  unfold cache_put. case_decide; [|apply filter_others_open].
  rewrite <- (filter_others_open name st).
  induction (caches_open name st) as [|[n c] l IH]; [done|].
  cbn [map fst snd]. case_decide as Hn.
  - rewrite !filter_cons_False by (cbn; tauto). apply IH.
  - rewrite !filter_cons_True by done. by rewrite IH.
Qed.

(** X21. A fetch listener writes to its own version's cache only: whatever
    the request and the network's answer, the caches of every other name
    are after the event what they were before it, entry for entry and in
    the same order. *)
Theorem fetch_writes_own_cache_only (origin : string) (net : network)
    (req : request) (st : storage) :
  filter (λ e, e.1 ≠ CACHE_NAME v1) (caches (W1.fetch origin net req st))
  = filter (λ e, e.1 ≠ CACHE_NAME v1) st
  ∧ filter (λ e, e.1 ≠ CACHE_NAME v2) (caches (W2.fetch origin net req st))
    = filter (λ e, e.1 ≠ CACHE_NAME v2) st.
Proof.
  assert (∀ cfg h, cache_first cfg origin net req st = Some h →
            filter (λ e, e.1 ≠ CACHE_NAME cfg) (caches h)
            = filter (λ e, e.1 ≠ CACHE_NAME cfg) st) as Hcf.
  { intros cfg h. unfold cache_first.
    destruct (caches_match req st); [by intros [= <-]|].
    destruct (net req) as [r|]; [|done]. intros [= <-]. cbn [caches].
    destruct (_ && _); [apply filter_others_put|done]. }
  split.
  - unfold W1.fetch.
    destruct (cache_first v1 origin net req st) as [h|] eqn:Hh;
      [by apply Hcf|done].
  - unfold W2.fetch. case_decide.
    + destruct (net req) as [r|]; [|done]. cbn [caches].
      destruct (status r =? 200)%nat; [apply filter_others_put|done].
    + destruct (cache_first v2 origin net req st) as [h|] eqn:Hh;
        [by apply Hcf|done].
Qed.

Lemma caches_match_put_rejected (name : string) (req q : request)
    (resp : response) (st : storage) :
  method req ≠ "GET" →
  caches_match q (cache_put name req resp st) = caches_match q st.
Proof.
  intros Hm. unfold cache_put. rewrite decide_False by done.
  apply caches_match_open.
Qed.

(** X22. Only a [GET] answered with status 200 is ever stored: when the
    request is not a [GET], or the network fails or answers with another
    status, the caches answer every request after the event as they did
    before it, in both workers. *)
Theorem fetch_stores_only_get_200 (origin : string) (net : network)
    (req q : request) (st : storage) :
  method req ≠ "GET" ∨ net req = None
    ∨ (∃ resp, net req = Some resp ∧ status resp ≠ 200%nat) →
  caches_match q (caches (W1.fetch origin net req st)) = caches_match q st
  ∧ caches_match q (caches (W2.fetch origin net req st)) = caches_match q st.
Proof.
  intros H.
  assert (∀ cfg h, cache_first cfg origin net req st = Some h →
            caches h = st) as Hcf.
  { intros cfg h. unfold cache_first.
    destruct (caches_match req st); [by intros [= <-]|].
    destruct (net req) as [r|] eqn:Hr; [|done]. intros [= <-]. cbn [caches].
    destruct H as [Hm|[[=]|(r' & [= <-] & Hs)]].
    - by rewrite bool_decide_eq_false_2.
    - apply Nat.eqb_neq in Hs. rewrite Hs. by rewrite andb_false_r. }
  split.
  - unfold W1.fetch.
    destruct (cache_first v1 origin net req st) as [h|] eqn:Hh;
      [by rewrite (Hcf _ _ Hh)|done].
  - unfold W2.fetch. case_decide.
    + destruct (net req) as [r|] eqn:Hr; [|done]. cbn [caches].
      destruct (status r =? 200)%nat eqn:Hs; [|done].
      apply Nat.eqb_eq in Hs.
      destruct H as [Hm|[[=]|(r' & [= <-] & Hs')]]; [|done].
      by apply caches_match_put_rejected.
    + destruct (cache_first v2 origin net req st) as [h|] eqn:Hh;
        [by rewrite (Hcf _ _ Hh)|done].
Qed.

Lemma fetch_stores_only_get_200_witness :
  caches_match (GET Sample.origin "/api")
    (caches (W2.fetch Sample.origin (Sample.net "first")
               {| url := Sample.origin ++ "/api"; method := "POST";
                  mode := "navigate" |} Sample.caches_v1))
  = caches_match (GET Sample.origin "/api") Sample.caches_v1.
Proof.
  apply (fetch_stores_only_get_200 Sample.origin (Sample.net "first")
           {| url := Sample.origin ++ "/api"; method := "POST";
              mode := "navigate" |}).
  left. compute_done.
Defined.

End WorkerWrites.
